(** * Songwrite: rhyme, near-rhyme and syllable analysis of [script.js]

    A shallow embedding of the analysis functions of the lyric editor
    ([countSyllables], [getLastWord], [normalizeWord], [getRimeParts],
    [isRhyme], [isNearRhyme], [countLineSyllables] and the grouping pass of
    [updateEditor]) together with the properties of its specification.

    Strings are sequences of 8-bit code units (the Latin-1 range of the
    UTF-16 code units of a JavaScript string); this range is closed under
    [toLowerCase], [trim], [replace] and [split]. *)

From Stdlib Require Import Ascii String List Bool Arith ZArith Lia.
From Stdlib Require Import Numbers.DecimalString Sorting.Sorted.
Import ListNotations.

Local Open Scope string_scope.
Local Open Scope list_scope.
Local Open Scope nat_scope.

(** ** Strings and characters *)

Definition jsstring := list ascii.

Definition lit (s : string) : jsstring := list_ascii_of_string s.
Coercion lit : string >-> jsstring.

Definition code (c : ascii) : nat := nat_of_ascii c.

Definition between (lo hi : nat) (c : ascii) : bool :=
  (lo <=? code c) && (code c <=? hi).

(** [String.prototype.toLowerCase] on one code unit: A-Z, and the
    Latin-1 capitals 0xC0-0xDE except the multiplication sign 0xD7. *)
Definition lowerChar (c : ascii) : ascii :=
  if between 65 90 c then ascii_of_nat (code c + 32)
  else if between 192 222 c && negb (code c =? 215) then ascii_of_nat (code c + 32)
  else c.

Definition toLowerCase (s : jsstring) : jsstring := map lowerChar s.

(** [String.prototype.toUpperCase] on one code unit.  The three Latin-1
    letters whose capital lies outside the 8-bit range (0xB5, 0xDF, 0xFF)
    are left as they are; the program applies it to vowel clusters only. *)
Definition upperChar (c : ascii) : ascii :=
  if between 97 122 c then ascii_of_nat (code c - 32)
  else if between 224 254 c && negb (code c =? 247) then ascii_of_nat (code c - 32)
  else c.

Definition toUpperCase (s : jsstring) : jsstring := map upperChar s.

(** White space of [trim] and of the regular expression class [\s]:
    TAB, LF, VT, FF, CR, SPACE and NBSP. *)
Definition isSpace (c : ascii) : bool :=
  between 9 13 c || (code c =? 32) || (code c =? 160).

Fixpoint trimStart (s : jsstring) : jsstring :=
  match s with
  | [] => []
  | c :: r => if isSpace c then trimStart r else s
  end.

Definition trimEnd (s : jsstring) : jsstring := rev (trimStart (rev s)).

Definition trim (s : jsstring) : jsstring := trimEnd (trimStart s).

(** The class [a-z]. *)
Definition isLetter (c : ascii) : bool := between 97 122 c.

(** [s.replace(/[^a-z]/g, "")] *)
Definition keepLetters (s : jsstring) : jsstring := filter isLetter s.

(** [===] on strings *)
Fixpoint streq (a b : jsstring) : bool :=
  match a, b with
  | [], [] => true
  | x :: a', y :: b' => Ascii.eqb x y && streq a' b'
  | _, _ => false
  end.

(** Truthiness of a string: non-empty. *)
Definition nonEmpty (s : jsstring) : bool :=
  match s with [] => false | _ => true end.

(** [s[i]]: [None] stands for [undefined]. *)
Definition charAt (s : jsstring) (i : nat) : option ascii := nth_error s i.

(** [undefined] converted to a string, as string concatenation and
    [includes] do. *)
Definition charText (o : option ascii) : jsstring :=
  match o with Some c => [c] | None => lit "undefined" end.

Definition vowels : jsstring := lit "aeiouy".

Definition isVowel (c : ascii) : bool := existsb (Ascii.eqb c) vowels.

(** [vowels.includes(x)] for [x] a character or [undefined]: no substring
    of [vowels] has the nine letters of [undefined]. *)
Definition includesVowel (o : option ascii) : bool :=
  match o with Some c => isVowel c | None => false end.

(** [s.slice(-3)] *)
Definition sliceLast3 (s : jsstring) : jsstring := skipn (length s - 3) s.

(** [s.endsWith(t)] *)
Definition endsWith (s t : jsstring) : bool :=
  streq (skipn (length s - length t) s) t && (length t <=? length s).

(** ** Word normalizer *)

(** [normalizeWord]: an empty (falsy) argument gives the empty string. *)
Definition normalizeWord (rawWord : jsstring) : jsstring :=
  if negb (nonEmpty rawWord) then []
  else keepLetters (toLowerCase rawWord).

(** ** Rime extractor *)

Record RimeParts := mkRimeParts {
  vowelCluster : jsstring;
  coda : jsstring;
  rime : jsstring;
  ending : jsstring
}.

(** The two [while] loops of [getRimeParts].  The counter [n] is
    [index + 1], so that [index >= 0] reads [n > 0]; the loops return the
    counter they stop at and the string collected. *)
Fixpoint codaLoop (normalized : jsstring) (n : nat) (coda : jsstring)
  : nat * jsstring :=
  match n with
  | O => (O, coda)
  | S index =>
      if negb (includesVowel (charAt normalized index))
      then codaLoop normalized index (charText (charAt normalized index) ++ coda)
      else (n, coda)
  end.

Fixpoint vowelLoop (normalized : jsstring) (n : nat) (vowelCluster : jsstring)
  : nat * jsstring :=
  match n with
  | O => (O, vowelCluster)
  | S index =>
      if includesVowel (charAt normalized index)
      then vowelLoop normalized index
             (charText (charAt normalized index) ++ vowelCluster)
      else (n, vowelCluster)
  end.

Definition getRimeParts (rawWord : jsstring) : RimeParts :=
  let normalized := normalizeWord rawWord in
  if negb (nonEmpty normalized) then mkRimeParts [] [] [] []
  else
    let '(n1, coda) := codaLoop normalized (length normalized) [] in
    let '(n2, vowelCluster) := vowelLoop normalized n1 [] in
    if negb (nonEmpty vowelCluster)
    then mkRimeParts [] [] [] (sliceLast3 normalized)
    else mkRimeParts vowelCluster coda (vowelCluster ++ coda)
           (sliceLast3 normalized).

(** ** Rhyme classifier *)

Record PhoneticPattern := mkPattern {
  vowelSound : jsstring;
  consonantEnding : jsstring;
  exactEnding : jsstring
}.

Definition getPhoneticPattern (word : jsstring) : PhoneticPattern :=
  let parts := getRimeParts word in
  mkPattern (toUpperCase (vowelCluster parts)) (coda parts) (ending parts).

Definition isRhyme (word1 word2 : jsstring) : bool :=
  let first := normalizeWord word1 in
  let second := normalizeWord word2 in
  if negb (nonEmpty first) || negb (nonEmpty second) || streq first second
  then false
  else
    let parts1 := getRimeParts first in
    let parts2 := getRimeParts second in
    if negb (nonEmpty (vowelCluster parts1)) || negb (nonEmpty (vowelCluster parts2))
    then false
    else if streq (rime parts1) (rime parts2) then true
    else if streq (ending parts1) (ending parts2) && (2 <=? length (ending parts1))
    then true
    else false.

Definition isNearRhyme (word1 word2 : jsstring) : bool :=
  let first := normalizeWord word1 in
  let second := normalizeWord word2 in
  if negb (nonEmpty first) || negb (nonEmpty second) || streq first second
  then false
  else if isRhyme word1 word2 then false
  else
    let pattern1 := getPhoneticPattern first in
    let pattern2 := getPhoneticPattern second in
    if nonEmpty (vowelSound pattern1)
       && streq (vowelSound pattern1) (vowelSound pattern2)
       && negb (streq (consonantEnding pattern1) (consonantEnding pattern2))
    then true
    else if nonEmpty (consonantEnding pattern1)
       && streq (consonantEnding pattern1) (consonantEnding pattern2)
       && negb (streq (vowelSound pattern1) (vowelSound pattern2))
    then true
    else false.

Definition isAssonance (word1 word2 : jsstring) : bool :=
  isNearRhyme word1 word2.

(** ** JavaScript values

    The values that reach the syllable counter's results: numbers
    (integers here), strings, and the built-in functions and objects an
    object literal inherits from [Object.prototype]. *)

Inductive jsval :=
  | JNum (n : Z)
  | JStr (s : jsstring)
  | JFunction (name : jsstring)
  | JObject (name : jsstring).

Definition truthy (v : jsval) : bool :=
  match v with
  | JNum n => negb (n =? 0)%Z
  | JStr s => nonEmpty s
  | JFunction _ | JObject _ => true
  end.

Definition decimal (n : Z) : jsstring :=
  lit (NilZero.string_of_int (Z.to_int n)).

(** Conversion to a string, as [+] and template literals do.  The text of
    a built-in function is the engine's; the rendering of V8 is taken. *)
Definition toText (v : jsval) : jsstring :=
  match v with
  | JNum n => decimal n
  | JStr s => s
  | JFunction name => lit "function " ++ name ++ lit "() { [native code] }"
  | JObject _ => lit "[object Object]"
  end.

(** [a + b]: numeric addition of two numbers, string concatenation as
    soon as one side is not a number. *)
Definition jsAdd (a b : jsval) : jsval :=
  match a, b with
  | JNum x, JNum y => JNum (x + y)
  | _, _ => JStr (toText a ++ toText b)
  end.

Definition props := list (jsstring * jsval).

Fixpoint ownProp (o : props) (key : jsstring) : option jsval :=
  match o with
  | [] => None
  | (k, v) :: r => if streq k key then Some v else ownProp r key
  end.

(** The properties every object literal inherits. *)
Definition Object_prototype : props :=
  [ (lit "constructor", JFunction "Object");
    (lit "hasOwnProperty", JFunction "hasOwnProperty");
    (lit "isPrototypeOf", JFunction "isPrototypeOf");
    (lit "propertyIsEnumerable", JFunction "propertyIsEnumerable");
    (lit "toLocaleString", JFunction "toLocaleString");
    (lit "toString", JFunction "toString");
    (lit "valueOf", JFunction "valueOf");
    (lit "__defineGetter__", JFunction "__defineGetter__");
    (lit "__defineSetter__", JFunction "__defineSetter__");
    (lit "__lookupGetter__", JFunction "__lookupGetter__");
    (lit "__lookupSetter__", JFunction "__lookupSetter__");
    (lit "__proto__", JObject "Object.prototype") ].

(** [o[key]] for an object literal [o]: own properties first, then the
    prototype; [None] stands for [undefined]. *)
Definition getProp (o : props) (key : jsstring) : option jsval :=
  match ownProp o key with
  | Some v => Some v
  | None => ownProp Object_prototype key
  end.

(** ** Syllable counter *)

Definition specialCases : props :=
  [ (lit "the", JNum 1); (lit "a", JNum 1); (lit "i", JNum 1);
    (lit "are", JNum 1); (lit "fire", JNum 2); (lit "hour", JNum 2);
    (lit "our", JNum 2); (lit "every", JNum 3); (lit "being", JNum 2);
    (lit "quiet", JNum 2); (lit "poem", JNum 2) ].

(** The [for] loop over the letters of the word, with its two variables. *)
Fixpoint vowelGroups (word : jsstring) (count : Z) (previousWasVowel : bool) : Z :=
  match word with
  | [] => count
  | c :: rest =>
      let isVowel := includesVowel (Some c) in
      vowelGroups rest
        (if isVowel && negb previousWasVowel then count + 1 else count)%Z
        isVowel
  end.

(** The vowel-group count with its two adjustments and the floor. *)
Definition syllableHeuristic (word : jsstring) : jsval :=
  let count := vowelGroups word 0%Z false in
  let count :=
    if endsWith word "e" && (1 <? count)%Z then (count - 1)%Z else count in
  let count :=
    if (2 <? length word) && endsWith word "le"
       && negb (includesVowel (charAt word (length word - 3)))
    then (count + 1)%Z else count in
  JNum (Z.max 1 count).

Definition countSyllables (word : jsstring) : jsval :=
  let word := trim (toLowerCase word) in
  if length word =? 0 then JNum 0
  else
    let word := keepLetters word in
    if length word =? 0 then JNum 0
    else
      match getProp specialCases word with
      | Some v => if truthy v then v else syllableHeuristic word
      | None => syllableHeuristic word
      end.

(** ** Splitting and the last word *)

Definition startsWithSpace (s : jsstring) : bool :=
  match s with
  | c :: _ => isSpace c
  | [] => false
  end.

(** [s.split(/\s+/)]: the pieces between maximal runs of white space; a
    run at either end gives an empty piece there. *)
Fixpoint splitSpaces (s : jsstring) : list jsstring :=
  match s with
  | [] => [[]]
  | c :: r =>
      if isSpace c then
        if startsWithSpace r then splitSpaces r else [] :: splitSpaces r
      else
        match splitSpaces r with
        | piece :: pieces => (c :: piece) :: pieces
        | [] => [[c]]
        end
  end.

(** The class of [getLastWord]: . , ! ? ; : the two quotes and the three
    pairs of brackets. *)
Definition punctuation : jsstring :=
  lit ".,!?;:" ++ ["034"%char] ++ lit "'()[]{}".

Definition isPunctuation (c : ascii) : bool := existsb (Ascii.eqb c) punctuation.

Definition stripPunctuation (s : jsstring) : jsstring :=
  filter (fun c => negb (isPunctuation c)) s.

(** [getLastWord]; [None] is the [TypeError] of calling [toLowerCase] on
    [undefined], were [words] empty. *)
Definition getLastWord (line : jsstring) : option jsstring :=
  let trimmed := trim line in
  if negb (nonEmpty trimmed) then Some []
  else
    let words := splitSpaces (stripPunctuation trimmed) in
    match nth_error words (length words - 1) with
    | Some w => Some (toLowerCase w)
    | None => None
    end.

Definition countLineSyllables (line : jsstring) : jsval :=
  if negb (nonEmpty (trim line)) then JNum 0
  else
    let words := splitSpaces line in
    fold_left
      (fun total word =>
         if nonEmpty (trim word) then jsAdd total (countSyllables word) else total)
      words (JNum 0).

(** ** Section-aware grouping *)

Definition BREAK_MARKER : jsstring := lit "---".

Definition isBlank (line : jsstring) : bool := negb (nonEmpty (trim line)).

Definition isBreak (line : jsstring) : bool := streq (trim line) BREAK_MARKER.

(** [lines[i]] and [lastWords[i]] for an index of the loops, which run
    below [lines.length].  Past the end [lastWords[i]] would be
    [undefined], which [normalizeWord] treats as the empty string. *)
Definition lineAt (lines : list jsstring) (i : nat) : jsstring := nth i lines [].

(** [editor.value.split("\n")] *)
Fixpoint splitLines (buffer : jsstring) : list jsstring :=
  match buffer with
  | [] => [[]]
  | c :: r =>
      if Ascii.eqb c "010"%char then [] :: splitLines r
      else
        match splitLines r with
        | line :: rest => (c :: line) :: rest
        | [] => [[c]]
        end
  end.

Definition breakPositions (lines : list jsstring) : list nat :=
  filter (fun i => isBreak (lineAt lines i)) (seq 0 (length lines)).

Fixpoint inSameSection (breakPositions : list nat) (i j : nat) : bool :=
  match breakPositions with
  | [] => true
  | breakPos :: rest =>
      if (i <? breakPos) && (breakPos <=? j) || (j <? breakPos) && (breakPos <=? i)
      then false
      else inSameSection rest i j
  end.

(** [group.includes(i)] and [groups.some(group => group.includes(i))] *)
Definition includes (group : list nat) (i : nat) : bool := existsb (Nat.eqb i) group.

Definition inSomeGroup (groups : list (list nat)) (i : nat) : bool :=
  existsb (fun group => includes group i) groups.

(** The inner [for (j = i + 1; j < lines.length; j++)] loop: the indices
    pushed after the anchor [i], in order. *)
Definition partners (lines lastWords : list jsstring)
    (related : jsstring -> jsstring -> bool) (i : nat) : list nat :=
  filter
    (fun j =>
       nonEmpty (trim (lineAt lines j))
       && negb (isBreak (lineAt lines j))
       && inSameSection (breakPositions lines) i j
       && related (lineAt lastWords i) (lineAt lastWords j))
    (seq (i + 1) (length lines - (i + 1))).

Record Groups := mkGroups {
  rhymeGroups : list (list nat);
  nearRhymeGroups : list (list nat)
}.

(** One iteration of the outer loop. *)
Definition groupStep (lines lastWords : list jsstring) (st : Groups) (i : nat)
  : Groups :=
  if isBlank (lineAt lines i) || isBreak (lineAt lines i) then st
  else
    let inRhymeGroup := inSomeGroup (rhymeGroups st) i in
    let rhymeGroups' :=
      if negb inRhymeGroup then
        let rhymeGroup := i :: partners lines lastWords isRhyme i in
        if 1 <? length rhymeGroup then rhymeGroups st ++ [rhymeGroup]
        else rhymeGroups st
      else rhymeGroups st in
    let inNearRhymeGroup := inSomeGroup (nearRhymeGroups st) i in
    let nearRhymeGroups' :=
      if negb inNearRhymeGroup && negb inRhymeGroup then
        let nearRhymeGroup := i :: partners lines lastWords isNearRhyme i in
        if 1 <? length nearRhymeGroup then nearRhymeGroups st ++ [nearRhymeGroup]
        else nearRhymeGroups st
      else nearRhymeGroups st in
    mkGroups rhymeGroups' nearRhymeGroups'.

Definition buildGroups (lines lastWords : list jsstring) : Groups :=
  fold_left (groupStep lines lastWords) (seq 0 (length lines)) (mkGroups [] []).

(** ** Per-line annotations *)

Inductive Indicator :=
  | NoIndicator
  | RhymeDot (color : nat)
  | NearRhymeDot (color : nat).

(** [groups.findIndex(group => group.includes(i))]; [None] is [-1]. *)
Fixpoint findIndex (groups : list (list nat)) (i : nat) : option nat :=
  match groups with
  | [] => None
  | group :: rest =>
      if includes group i then Some 0
      else match findIndex rest i with
           | Some k => Some (S k)
           | None => None
           end
  end.

(** The text of the syllable cell of a line. *)
Definition syllableCell (line : jsstring) : jsstring :=
  if isBreak line then []
  else
    let count := countLineSyllables line in
    if nonEmpty (trim line) then toText count else [].

Definition rhymeIndicator (g : Groups) (line : jsstring) (i : nat) : Indicator :=
  if isBlank line || isBreak line then NoIndicator
  else
    match findIndex (rhymeGroups g) i with
    | Some rhymeGroupIndex => RhymeDot (rhymeGroupIndex mod 30)
    | None =>
        match findIndex (nearRhymeGroups g) i with
        | Some nearRhymeGroupIndex => NearRhymeDot (nearRhymeGroupIndex mod 30)
        | None => NoIndicator
        end
    end.

Record Annotation := mkAnnotation {
  syllableCount : jsstring;
  indicator : Indicator
}.

Record Analysis := mkAnalysis {
  groups : Groups;
  annotations : list Annotation
}.

(** [lines.map(f)] for an [f] that may throw. *)
Fixpoint mapM {A B} (f : A -> option B) (l : list A) : option (list B) :=
  match l with
  | [] => Some []
  | x :: r =>
      match f x with
      | None => None
      | Some y =>
          match mapM f r with
          | None => None
          | Some ys => Some (y :: ys)
          end
      end
  end.

(** The grouping pass of [updateEditor] on the array of lines; [None] is
    an exception thrown by [getLastWord]. *)
Definition groupLines (lines : list jsstring) : option Groups :=
  match mapM getLastWord lines with
  | None => None
  | Some lastWords => Some (buildGroups lines lastWords)
  end.

Definition annotate (g : Groups) (lines : list jsstring) : list Annotation :=
  map (fun '(i, line) =>
         mkAnnotation (syllableCell line) (rhymeIndicator g line i))
      (combine (seq 0 (length lines)) lines).

(** [updateEditor] as a function of the buffer. *)
Definition updateEditor (buffer : jsstring) : option Analysis :=
  let lines := splitLines buffer in
  match groupLines lines with
  | None => None
  | Some g => Some (mkAnalysis g (annotate g lines))
  end.

Definition nl : jsstring := ["010"%char].

(** ** Definitions used by the statements and proofs *)

(** Both loops walk down from a counter while a test on the character
    below it holds. *)
Fixpoint scanDown (normalized : jsstring) (test : option ascii -> bool)
    (n : nat) (acc : jsstring)
  : nat * jsstring :=
  match n with
  | O => (O, acc)
  | S index =>
      if test (charAt normalized index)
      then scanDown normalized test index (charText (charAt normalized index) ++ acc)
      else (n, acc)
  end.

(** The reading of the specification: equal non-empty rimes, or equal
    endings of two characters or more. *)
Definition rhymeRule (a b : jsstring) : Prop :=
  (rime (getRimeParts a) = rime (getRimeParts b)
   /\ rime (getRimeParts a) <> [] /\ rime (getRimeParts b) <> [])
  \/ (ending (getRimeParts a) = ending (getRimeParts b)
      /\ 2 <= length (ending (getRimeParts a))).

(** What the code decides: the ending fallback is reached only by words
    that both have a vowel cluster. *)
Definition rhymeRuleGuarded (a b : jsstring) : Prop :=
  (rime (getRimeParts a) = rime (getRimeParts b)
   /\ rime (getRimeParts a) <> [] /\ rime (getRimeParts b) <> [])
  \/ (ending (getRimeParts a) = ending (getRimeParts b)
      /\ 2 <= length (ending (getRimeParts a))
      /\ vowelCluster (getRimeParts a) <> []
      /\ vowelCluster (getRimeParts b) <> []).

(** The word [getLastWord] returns when nothing is thrown. *)
Definition lastWordOf (line : jsstring) : jsstring :=
  if negb (nonEmpty (trim line)) then []
  else toLowerCase (last (splitSpaces (stripPunctuation (trim line))) []).

(** The reading of the specification: the normalized form of the final
    token. *)
Definition lastWord_spec (line : jsstring) : jsstring :=
  let trimmed := trim line in
  if negb (nonEmpty trimmed) then []
  else normalizeWord (last (splitSpaces (stripPunctuation trimmed)) []).

(** A group is its anchor followed by later lines of the anchor's
    section. *)
Definition anchored (lines : list jsstring) (group : list nat) : Prop :=
  exists i rest,
    group = i :: rest
    /\ forall x, In x rest ->
         i < x < length lines
         /\ inSameSection (breakPositions lines) i x = true.

Definition allAnchored (lines : list jsstring) (st : Groups) : Prop :=
  Forall (anchored lines) (rhymeGroups st)
  /\ Forall (anchored lines) (nearRhymeGroups st).

(** The example of the specification. *)
Definition dayWayPlay : list jsstring :=
  [lit "day"; lit "way"; lit "---"; lit "play"].

(** A buffer without content: every line is blank or a break marker. *)
Definition degenerate (lines : list jsstring) : Prop :=
  Forall (fun line => isBlank line = true \/ isBreak line = true) lines.

(** ** The remaining functions and the button handlers *)

(** [getVowelSounds]: the [for ... of] loop with its accumulator. *)
Fixpoint vowelSoundsLoop (word : jsstring) (sounds : jsstring) : jsstring :=
  match word with
  | [] => sounds
  | char :: rest =>
      vowelSoundsLoop rest
        (if includesVowel (Some char) then sounds ++ [char] else sounds)
  end.

Definition getVowelSounds (word : jsstring) : jsstring :=
  vowelSoundsLoop (keepLetters (toLowerCase word)) [].

(** [lines.join("\n")] *)
Fixpoint joinLines (lines : list jsstring) : jsstring :=
  match lines with
  | [] => []
  | [line] => line
  | line :: rest => line ++ nl ++ joinLines rest
  end.

(** The text and the cursor the [insertBreak] handler sets, from the
    text and [selectionStart] it reads. *)
Definition insertBreakText (value : jsstring) (cursorPosition : nat) : jsstring :=
  let textBefore := firstn cursorPosition value in
  let textAfter := skipn cursorPosition value in
  textBefore ++ (nl ++ lit "---" ++ nl) ++ textAfter.

Definition insertBreakCursor (cursorPosition : nat) : nat := cursorPosition + 5.

(** The text the [removeBlankLines] handler sets. *)
Definition removeBlankLinesText (value : jsstring) : jsstring :=
  let lines := splitLines value in
  let filteredLines :=
    filter (fun line => negb (streq (trim line) []) || streq (trim line) (lit "---"))
      lines in
  joinLines filteredLines.









(** [countSyllables] after its two emptiness tests, on the letters kept. *)
Definition syllablesOfLetters (word : jsstring) : jsval :=
  if length word =? 0 then JNum 0
  else
    match getProp specialCases word with
    | Some v => if truthy v then v else syllableHeuristic word
    | None => syllableHeuristic word
    end.

(** A content line: neither blank nor a break marker. *)
Definition isContent (line : jsstring) : bool :=
  negb (isBlank line) && negb (isBreak line).

(** The first index of each group. *)
Definition anchors (gs : list (list nat)) : list nat := map (fun g => hd 0 g) gs.

(** A group as one iteration of the outer loop builds it: a content line
    followed by all its partners, of which there is at least one. *)
Definition scanOf (lines lastWords : list jsstring)
    (related : jsstring -> jsstring -> bool) (group : list nat) : Prop :=
  exists i,
    i < length lines
    /\ isContent (lineAt lines i) = true
    /\ partners lines lastWords related i <> []
    /\ group = i :: partners lines lastWords related i.

(** A line without a newline character. *)
Definition newlineFree (line : jsstring) : Prop :=
  Forall (fun c => Ascii.eqb c "010"%char = false) line.

(** The invariant of the outer loop before iteration [n]: every group is
    the scan of its anchor, the anchors of each list increase and lie
    below [n], and every content line below [n] that has a partner is in
    a group. *)
Definition loopInvariant (lines lastWords : list jsstring) (n : nat) (st : Groups)
  : Prop :=
  Forall (scanOf lines lastWords isRhyme) (rhymeGroups st)
  /\ Forall (scanOf lines lastWords isNearRhyme) (nearRhymeGroups st)
  /\ StronglySorted lt (anchors (rhymeGroups st))
  /\ Forall (fun a => a < n) (anchors (rhymeGroups st))
  /\ StronglySorted lt (anchors (nearRhymeGroups st))
  /\ Forall (fun a => a < n) (anchors (nearRhymeGroups st))
  /\ (forall k, k < n -> isContent (lineAt lines k) = true ->
        (partners lines lastWords isRhyme k <> [] ->
         inSomeGroup (rhymeGroups st) k = true)
        /\ (partners lines lastWords isNearRhyme k <> [] ->
            inSomeGroup (rhymeGroups st) k = true
            \/ inSomeGroup (nearRhymeGroups st) k = true)).

(** A string that is empty or starts with a letter that is not a vowel. *)
Definition headNotVowel (p : jsstring) : Prop :=
  match p with [] => True | x :: _ => isVowel x = false end.

(** ** Characters *)

Ltac each_ascii c :=
  destruct c as [[] [] [] [] [] [] [] []]; vm_compute; try reflexivity; try discriminate.

Lemma lowerChar_letter c : isLetter c = true -> lowerChar c = c.
Proof. each_ascii c. Qed.

Lemma lowerChar_idem c : lowerChar (lowerChar c) = lowerChar c.
Proof. each_ascii c. Qed.

Lemma lowerChar_space c : isSpace (lowerChar c) = isSpace c.
Proof. each_ascii c. Qed.

Lemma lowerChar_punctuation c : isPunctuation (lowerChar c) = isPunctuation c.
Proof. each_ascii c. Qed.

Lemma lowerChar_not_capital c : between 65 90 (lowerChar c) = false.
Proof. each_ascii c. Qed.

Lemma space_not_letter c : isSpace c = true -> isLetter c = false.
Proof. each_ascii c. Qed.

Lemma vowel_is_letter c : isVowel c = true -> isLetter c = true.
Proof. each_ascii c. Qed.

Lemma isVowel_In c : isVowel c = true <-> In c vowels.
Proof.
  unfold isVowel. rewrite existsb_exists. split.
  - intros [x [Hx E]]. apply Ascii.eqb_eq in E. now subst.
  - intros H. exists c. split; [assumption | apply Ascii.eqb_refl].
Qed.

(** ** String equality *)

Lemma streq_spec a b : streq a b = true <-> a = b.
Proof.
  revert b. induction a as [|x a IH]; intros [|y b]; simpl; split;
    try discriminate; try reflexivity.
  - intros H. apply andb_true_iff in H as [H1 H2].
    apply Ascii.eqb_eq in H1. apply IH in H2. now subst.
  - intros H. injection H as -> ->. apply andb_true_iff. split.
    + apply Ascii.eqb_refl.
    + now apply IH.
Qed.

Lemma streq_refl a : streq a a = true.
Proof. now apply streq_spec. Qed.

Lemma streq_sym a b : streq a b = streq b a.
Proof.
  destruct (streq a b) eqn:E1, (streq b a) eqn:E2; try reflexivity.
  - apply streq_spec in E1. subst. now rewrite streq_refl in E2.
  - apply streq_spec in E2. subst. now rewrite streq_refl in E1.
Qed.

Lemma streq_false a b : streq a b = false <-> a <> b.
Proof.
  split.
  - intros H E. subst. now rewrite streq_refl in H.
  - intros H. destruct (streq a b) eqn:E; [|reflexivity].
    apply streq_spec in E. contradiction.
Qed.

Lemma nonEmpty_true s : nonEmpty s = true <-> s <> [].
Proof. destruct s; simpl; split; congruence. Qed.

Lemma nonEmpty_false s : nonEmpty s = false <-> s = [].
Proof. destruct s; simpl; split; congruence. Qed.

(** ** Normalization *)

Lemma normalizeWord_eq w : normalizeWord w = keepLetters (toLowerCase w).
Proof. unfold normalizeWord. now destruct w. Qed.

Lemma normalizeWord_letters w : Forall (fun c => isLetter c = true) (normalizeWord w).
Proof.
  rewrite normalizeWord_eq. unfold keepLetters. apply Forall_forall.
  intros c H. now apply filter_In in H.
Qed.

Lemma toLowerCase_letters s :
  Forall (fun c => isLetter c = true) s -> toLowerCase s = s.
Proof.
  induction 1 as [|c s Hc _ IH]; simpl; [reflexivity|].
  now rewrite lowerChar_letter, IH.
Qed.

Lemma keepLetters_letters s :
  Forall (fun c => isLetter c = true) s -> keepLetters s = s.
Proof.
  induction 1 as [|c s Hc _ IH]; simpl; [reflexivity|].
  now rewrite Hc, IH.
Qed.

Lemma normalizeWord_idem w : normalizeWord (normalizeWord w) = normalizeWord w.
Proof.
  rewrite (normalizeWord_eq (normalizeWord w)).
  rewrite toLowerCase_letters, keepLetters_letters;
    auto using normalizeWord_letters.
Qed.

Lemma keepLetters_trimStart s : keepLetters (trimStart s) = keepLetters s.
Proof.
  induction s as [|c s IH]; simpl; [reflexivity|].
  destruct (isSpace c) eqn:E; [|reflexivity].
  now rewrite (space_not_letter _ E).
Qed.

Lemma keepLetters_trim s : keepLetters (trim s) = keepLetters s.
Proof.
  unfold trim, trimEnd, keepLetters.
  rewrite filter_rev. fold (keepLetters (trimStart (rev (trimStart s)))).
  rewrite keepLetters_trimStart. unfold keepLetters.
  rewrite filter_rev, rev_involutive.
  apply keepLetters_trimStart.
Qed.

(** ** The loops of the rime extractor *)

Section RimeLoops.

Variable normalized : jsstring.

Lemma codaLoop_scan n acc :
  codaLoop normalized n acc
  = scanDown normalized (fun o => negb (includesVowel o)) n acc.
Proof.
  revert acc. induction n as [|n IH]; intros acc; simpl; [reflexivity|].
  now rewrite IH.
Qed.

Lemma vowelLoop_scan n acc :
  vowelLoop normalized n acc = scanDown normalized includesVowel n acc.
Proof.
  revert acc. induction n as [|n IH]; intros acc; simpl; [reflexivity|].
  now rewrite IH.
Qed.

Lemma firstn_snoc (i : nat) (x : ascii) :
  nth_error normalized i = Some x ->
  firstn (S i) normalized = firstn i normalized ++ [x].
Proof.
  revert i. induction normalized as [|y l IH]; intros [|i] H; simpl in *;
    try discriminate.
  - now injection H as ->.
  - f_equal. now apply IH.
Qed.

(** What a downward scan returns: the collected characters [got] all pass
    the test, they are the part of the word between the two counters,
    and the character below the final counter, if any, fails the test. *)
Lemma scanDown_spec test n acc :
  n <= length normalized ->
  exists m got,
    scanDown normalized test n acc = (m, got ++ acc)
    /\ m <= n
    /\ firstn n normalized = firstn m normalized ++ got
    /\ Forall (fun c => test (Some c) = true) got
    /\ (m = 0 \/ exists x index,
           m = S index /\ nth_error normalized index = Some x
           /\ test (Some x) = false).
Proof.
  revert acc. induction n as [|index IH]; intros acc Hn.
  - exists 0, []. simpl. repeat split; auto.
  - cbn [scanDown]. unfold charAt.
    destruct (nth_error normalized index) as [x|] eqn:Hx.
    2:{ apply nth_error_None in Hx. lia. }
    destruct (test (Some x)) eqn:Ht.
    + destruct (IH (charText (Some x) ++ acc)) as (m & got & E & Hm & Hf & Hall & Hstop);
        [lia|].
      exists m, (got ++ [x]).
      change (charText (Some x) ++ acc) with ([x] ++ acc) in E |- *. rewrite E.
      repeat split.
      * now rewrite <- app_assoc.
      * lia.
      * rewrite (firstn_snoc _ _ Hx), Hf. now rewrite app_assoc.
      * apply Forall_app. split; [assumption|]. now constructor.
      * assumption.
    + exists (S index), []. repeat split; auto.
      * now rewrite app_nil_r.
      * right. exists x, index. auto.
Qed.

End RimeLoops.

(** The record [getRimeParts] returns, in terms of a decomposition of the
    normalized word. *)
Lemma getRimeParts_cases (rawWord : jsstring) :
  let normalized := normalizeWord rawWord in
  let parts := getRimeParts rawWord in
  ending parts = sliceLast3 normalized
  /\ ((vowelCluster parts = [] /\ coda parts = [] /\ rime parts = []
       /\ Forall (fun c => isVowel c = false) normalized)
      \/ (exists pre,
            normalized = pre ++ vowelCluster parts ++ coda parts
            /\ vowelCluster parts <> []
            /\ rime parts = vowelCluster parts ++ coda parts
            /\ Forall (fun c => isVowel c = true) (vowelCluster parts)
            /\ Forall (fun c => isVowel c = false) (coda parts))).
Proof.
  intros normalized parts. subst parts. unfold getRimeParts.
  fold normalized.
  destruct normalized as [|c0 w0] eqn:En.
  { simpl. split; [reflexivity|]. left. repeat split; constructor. }
  rewrite <- En. replace (nonEmpty normalized) with true by now rewrite En.
  simpl negb. cbv iota.
  rewrite codaLoop_scan.
  destruct (scanDown_spec normalized (fun o => negb (includesVowel o))
              (length normalized) [] (le_n _))
    as (m & cd & E1 & Hm & Hf1 & Hall1 & Hstop1).
  rewrite E1, app_nil_r. rewrite vowelLoop_scan.
  destruct (scanDown_spec normalized includesVowel m [] Hm)
    as (k & vc & E2 & Hk & Hf2 & Hall2 & Hstop2).
  rewrite E2, app_nil_r.
  rewrite firstn_all in Hf1.
  assert (Hcd : Forall (fun c => isVowel c = false) cd).
  { eapply Forall_impl; [|exact Hall1]. simpl. intros a Ha.
    now apply negb_true_iff in Ha. }
  destruct vc as [|v vc]; simpl.
  - split; [reflexivity|]. left. repeat split.
    rewrite app_nil_r in Hf2.
    destruct Hstop1 as [-> | (x & index & -> & Hx & Hv)].
    + simpl in Hf1. now rewrite Hf1.
    + destruct Hstop2 as [-> | (y & index' & -> & Hy & Hv')].
      * rewrite (firstn_snoc _ _ _ Hx) in Hf2. simpl in Hf2.
        now destruct (firstn index normalized).
      * assert (index' = index) as ->.
        { assert (index < length normalized)
            by (apply nth_error_Some; congruence).
          assert (index' < length normalized)
            by (apply nth_error_Some; congruence).
          apply (f_equal (@length _)) in Hf2.
          rewrite !length_firstn in Hf2. lia. }
        rewrite Hx in Hy. injection Hy as ->.
        simpl in Hv, Hv'. rewrite Hv' in Hv. discriminate.
  - split; [reflexivity|]. right. exists (firstn k normalized).
    repeat split; try assumption.
    + rewrite Hf1 at 1. rewrite Hf2. now rewrite <- app_assoc.
    + discriminate.
Qed.

Lemma sliceLast3_spec (s : jsstring) :
  exists pre, s = pre ++ sliceLast3 s
              /\ length (sliceLast3 s) = Nat.min 3 (length s).
Proof.
  unfold sliceLast3. exists (firstn (length s - 3) s). split.
  - now rewrite firstn_skipn.
  - rewrite length_skipn. lia.
Qed.

Lemma getRimeParts_normalized w :
  getRimeParts (normalizeWord w) = getRimeParts w.
Proof. unfold getRimeParts. now rewrite normalizeWord_idem. Qed.

Lemma rime_empty_iff w :
  rime (getRimeParts w) = [] <-> vowelCluster (getRimeParts w) = [].
Proof.
  destruct (getRimeParts_cases w) as [_ [(Hv & _ & Hr & _) | (pre & _ & Hv & Hr & _)]].
  - now rewrite Hv, Hr.
  - rewrite Hr. split; intros H.
    + now apply app_eq_nil in H.
    + contradiction.
Qed.

(** ** Symmetry of the two predicates *)

Lemma isRhyme_sym a b : isRhyme a b = isRhyme b a.
Proof.
  unfold isRhyme.
  rewrite (streq_sym (normalizeWord a) (normalizeWord b)).
  rewrite (orb_comm (negb (nonEmpty (normalizeWord a)))
                    (negb (nonEmpty (normalizeWord b)))).
  destruct (negb (nonEmpty (normalizeWord b)) || negb (nonEmpty (normalizeWord a))
            || streq (normalizeWord b) (normalizeWord a)); [reflexivity|].
  generalize (getRimeParts (normalizeWord a)) (getRimeParts (normalizeWord b)).
  intros p q.
  rewrite (orb_comm (negb (nonEmpty (vowelCluster p)))).
  destruct (negb (nonEmpty (vowelCluster q)) || negb (nonEmpty (vowelCluster p)));
    [reflexivity|].
  rewrite (streq_sym (rime p) (rime q)).
  destruct (streq (rime q) (rime p)); [reflexivity|].
  rewrite (streq_sym (ending p) (ending q)).
  destruct (streq (ending q) (ending p)) eqn:E; [|reflexivity].
  apply streq_spec in E. now rewrite E.
Qed.

Lemma isNearRhyme_sym a b : isNearRhyme a b = isNearRhyme b a.
Proof.
  unfold isNearRhyme.
  rewrite (streq_sym (normalizeWord a) (normalizeWord b)).
  rewrite (orb_comm (negb (nonEmpty (normalizeWord a)))
                    (negb (nonEmpty (normalizeWord b)))).
  destruct (negb (nonEmpty (normalizeWord b)) || negb (nonEmpty (normalizeWord a))
            || streq (normalizeWord b) (normalizeWord a)); [reflexivity|].
  rewrite (isRhyme_sym a b).
  destruct (isRhyme b a); [reflexivity|].
  generalize (getPhoneticPattern (normalizeWord a))
             (getPhoneticPattern (normalizeWord b)).
  intros p q.
  rewrite (streq_sym (vowelSound q) (vowelSound p)).
  rewrite (streq_sym (consonantEnding q) (consonantEnding p)).
  destruct (streq (vowelSound p) (vowelSound q)) eqn:Ev;
    destruct (streq (consonantEnding p) (consonantEnding q)) eqn:Ec;
    try (apply streq_spec in Ev; rewrite Ev);
    try (apply streq_spec in Ec; rewrite Ec);
    simpl; rewrite ?andb_false_r, ?andb_true_r; reflexivity.
Qed.

(** C9: [isRhyme] and [isNearRhyme] are symmetric in their two words. *)
Theorem rhyme_predicates_symmetric (a b : jsstring) :
  isRhyme a b = isRhyme b a /\ isNearRhyme a b = isNearRhyme b a.
Proof. split; [apply isRhyme_sym | apply isNearRhyme_sym]. Qed.

(** ** Shape of the rime record *)

(** C10: in the record of [getRimeParts] the vowel cluster holds vowels
    only, the coda holds letters that are not vowels, the rime is the
    cluster followed by the coda and ends the normalized word, the ending
    is the last [min 3 length] characters of the normalized word, and a
    normalized word without a vowel gives an empty cluster, coda and rime. *)
Theorem getRimeParts_invariants (rawWord : jsstring) :
  let normalized := normalizeWord rawWord in
  let parts := getRimeParts rawWord in
  Forall (fun c => In c vowels) (vowelCluster parts)
  /\ Forall (fun c => isLetter c = true /\ ~ In c vowels) (coda parts)
  /\ rime parts = vowelCluster parts ++ coda parts
  /\ (exists pre, normalized = pre ++ rime parts)
  /\ (exists pre, normalized = pre ++ ending parts
                  /\ length (ending parts) = Nat.min 3 (length normalized))
  /\ ((forall c, In c normalized -> ~ In c vowels) ->
      vowelCluster parts = [] /\ coda parts = [] /\ rime parts = []).
Proof.
  intros normalized parts.
  destruct (getRimeParts_cases rawWord) as [He Hcases].
  fold normalized parts in He, Hcases.
  assert (Hend : exists pre, normalized = pre ++ ending parts
             /\ length (ending parts) = Nat.min 3 (length normalized)).
  { rewrite He. apply sliceLast3_spec. }
  destruct Hcases as [(Hv & Hc & Hr & _) | (pre & Hn & Hne & Hr & Hvs & Hcs)].
  - rewrite Hv, Hc, Hr. repeat split; auto.
    exists normalized. now rewrite app_nil_r.
  - repeat split.
    + eapply Forall_impl; [|exact Hvs]. intros c. apply isVowel_In.
    + pose proof (normalizeWord_letters rawWord) as Hl. fold normalized in Hl.
      rewrite Hn in Hl. apply Forall_app in Hl as [_ Hl].
      apply Forall_app in Hl as [_ Hl].
      rewrite Forall_forall in *. intros c Hc. split; [now apply Hl|].
      intros Hin. apply isVowel_In in Hin. rewrite (Hcs c Hc) in Hin.
      discriminate.
    + assumption.
    + exists pre. now rewrite Hr.
    + assumption.
    + exfalso. destruct (vowelCluster parts) as [|v vs]; [now apply Hne|].
      apply (H v).
      * rewrite Hn. apply in_or_app. right. now left.
      * apply isVowel_In. now inversion Hvs.
    + exfalso. destruct (vowelCluster parts) as [|v vs]; [now apply Hne|].
      apply (H v).
      * rewrite Hn. apply in_or_app. right. now left.
      * apply isVowel_In. now inversion Hvs.
    + exfalso. destruct (vowelCluster parts) as [|v vs]; [now apply Hne|].
      apply (H v).
      * rewrite Hn. apply in_or_app. right. now left.
      * apply isVowel_In. now inversion Hvs.
Qed.

Lemma getRimeParts_invariants_witness :
  vowelCluster (getRimeParts (lit "Shh!")) = []
  /\ coda (getRimeParts (lit "Shh!")) = []
  /\ rime (getRimeParts (lit "Shh!")) = [].
Proof.
  apply (getRimeParts_invariants (lit "Shh!")).
  intros c Hc Hv. vm_compute in Hc, Hv.
  repeat (destruct Hc as [<- | Hc];
          [repeat (destruct Hv as [Hv | Hv]; [discriminate Hv|]); exact Hv|]).
  exact Hc.
Defined.

(** ** Exact rhyme *)

(** C1, as amended: for words with distinct non-empty normalized forms,
    [isRhyme] holds exactly when the rimes are equal and non-empty, or the
    endings are equal, at least two characters long and both words have a
    vowel cluster. *)
Theorem isRhyme_guarded_rule (a b : jsstring) :
  normalizeWord a <> [] ->
  normalizeWord b <> [] ->
  normalizeWord a <> normalizeWord b ->
  (isRhyme a b = true <-> rhymeRuleGuarded a b).
Proof.
  intros Ha Hb Hab. unfold isRhyme, rhymeRuleGuarded.
  rewrite !getRimeParts_normalized.
  apply nonEmpty_true in Ha, Hb. apply streq_false in Hab.
  rewrite Ha, Hb, Hab. cbn [andb orb negb].
  pose proof (rime_empty_iff a) as Ra. pose proof (rime_empty_iff b) as Rb.
  destruct (nonEmpty (vowelCluster (getRimeParts a))) eqn:Va; cbn [andb orb negb].
  2:{ apply nonEmpty_false in Va. split; [discriminate|].
      intros [(_ & H & _) | (_ & _ & H & _)]; exfalso; tauto. }
  destruct (nonEmpty (vowelCluster (getRimeParts b))) eqn:Vb; cbn [andb orb negb].
  2:{ apply nonEmpty_false in Vb. split; [discriminate|].
      intros [(_ & _ & H) | (_ & _ & _ & H)]; exfalso; tauto. }
  apply nonEmpty_true in Va, Vb.
  destruct (streq (rime (getRimeParts a)) (rime (getRimeParts b))) eqn:Er.
  { apply streq_spec in Er. split; [|reflexivity]. intros _. left.
    repeat split; tauto. }
  apply streq_false in Er.
  destruct (streq (ending (getRimeParts a)) (ending (getRimeParts b))) eqn:Ee;
    cbn [andb orb negb].
  - apply streq_spec in Ee.
    destruct (2 <=? length (ending (getRimeParts a))) eqn:El.
    + apply Nat.leb_le in El. split; [|reflexivity]. intros _. right. tauto.
    + apply Nat.leb_gt in El. split; [discriminate|].
      intros [(H & _) | (_ & H & _)]; [contradiction | lia].
  - apply streq_false in Ee. split; [discriminate|].
    intros [(H & _) | (H & _)]; contradiction.
Qed.

Lemma isRhyme_guarded_rule_witness :
  isRhyme (lit "caught") (lit "light") = true
  <-> rhymeRuleGuarded (lit "caught") (lit "light").
Proof.
  apply (isRhyme_guarded_rule (lit "caught") (lit "light")).
  - vm_compute. discriminate.
  - vm_compute. discriminate.
  - vm_compute. discriminate.
Defined.

(** C1 as stated fails: "shh" and "pshh" have distinct non-empty normalized
    forms and the same three-letter ending, and [isRhyme] is false. *)
Lemma isRhyme_unguarded_rule_fails :
  ~ (forall a b : jsstring,
       normalizeWord a <> [] ->
       normalizeWord b <> [] ->
       normalizeWord a <> normalizeWord b ->
       rhymeRule a b -> isRhyme a b = true).
Proof.
  intros H.
  assert (E : isRhyme (lit "shh") (lit "pshh") = true).
  { apply H; try (vm_compute; discriminate).
    right. vm_compute. split; [reflexivity | lia]. }
  vm_compute in E. discriminate.
Qed.

(** ** Near rhyme on the example pair *)

(** C5: on the pair time / fine the code answers that it is an exact rhyme
    (both rimes are the final "e"), hence not a near rhyme; a word is no
    near rhyme of itself. *)
Theorem isNearRhyme_time_fine :
  isRhyme (lit "time") (lit "fine") = true
  /\ isNearRhyme (lit "time") (lit "fine") = false
  /\ isNearRhyme (lit "time") (lit "time") = false.
Proof. repeat split; vm_compute; reflexivity. Qed.

(** ** Sections *)

Lemma inSameSection_true (bps : list nat) (i j : nat) :
  inSameSection bps i j = true
  <-> forall p, In p bps -> ~ (Nat.min i j < p <= Nat.max i j).
Proof.
  induction bps as [|bp rest IH]; simpl.
  - split; [intros _ p [] | reflexivity].
  - destruct ((i <? bp) && (bp <=? j) || (j <? bp) && (bp <=? i)) eqn:E.
    + split; [discriminate|]. intros H. exfalso. apply (H bp); [now left|].
      apply orb_true_iff in E as [E | E]; apply andb_true_iff in E as [E1 E2];
        apply Nat.ltb_lt in E1; apply Nat.leb_le in E2; lia.
    + rewrite IH. split.
      * intros H p [<- | Hp]; [|now apply H].
        apply orb_false_iff in E as [E1 E2].
        apply andb_false_iff in E1, E2.
        rewrite !Nat.ltb_ge, !Nat.leb_gt in *. lia.
      * intros H p Hp. apply H. now right.
Qed.

(** C4, as amended: [inSameSection] holds exactly when no break position
    lies above the smaller index and at or below the larger one.  A break
    at the smaller index does not separate the two; a break at the larger
    index does when the indices differ; and when the larger index is not a
    break position this is the same as no break strictly between them. *)
Theorem inSameSection_half_open (bps : list nat) (i j : nat) :
  (inSameSection bps i j = true
   <-> forall p, In p bps -> ~ (Nat.min i j < p <= Nat.max i j))
  /\ (~ In (Nat.max i j) bps ->
      (inSameSection bps i j = true
       <-> forall p, In p bps -> ~ (Nat.min i j < p < Nat.max i j)))
  /\ (i <> j -> In (Nat.max i j) bps -> inSameSection bps i j = false).
Proof.
  split; [apply inSameSection_true|]. split.
  - intros Hmax. rewrite inSameSection_true. split; intros H p Hp Hr.
    + apply (H p Hp). lia.
    + apply (H p Hp). assert (p <> Nat.max i j) by (intros ->; contradiction).
      lia.
  - intros Hij Hmax. destruct (inSameSection bps i j) eqn:E; [|reflexivity].
    exfalso. apply (proj1 (inSameSection_true _ _ _) E _ Hmax). lia.
Qed.

Lemma inSameSection_half_open_witness :
  inSameSection [1] 0 1 = false
  /\ (inSameSection [0] 0 1 = true
      <-> forall p, In p [0] -> ~ (Nat.min 0 1 < p < Nat.max 0 1)).
Proof.
  split.
  - apply (inSameSection_half_open [1] 0 1); [lia | now left].
  - apply (inSameSection_half_open [0] 0 1). simpl. intros [H | []]. lia.
Defined.

(** C4 as stated fails: with a break at position 1, lines 0 and 1 have no
    break strictly between them and [inSameSection] is false. *)
Lemma inSameSection_strictly_between_fails :
  ~ (forall (bps : list nat) (i j : nat),
       inSameSection bps i j = true
       <-> forall p, In p bps -> ~ (Nat.min i j < p < Nat.max i j)).
Proof.
  intros H. specialize (H [1] 0 1). simpl in H.
  destruct H as [_ H]. discriminate H. intros p _. lia.
Qed.

(** ** The last word *)

Lemma splitSpaces_not_nil s : splitSpaces s <> [].
Proof.
  induction s as [|c r IH]; simpl; [discriminate|].
  destruct (isSpace c).
  - destruct (startsWithSpace r); [assumption | discriminate].
  - destruct (splitSpaces r); discriminate.
Qed.

Lemma nth_error_last {A} (l : list A) (d : A) :
  l <> [] -> nth_error l (length l - 1) = Some (last l d).
Proof.
  induction l as [|x l IH]; [congruence|]. intros _.
  destruct l as [|y l']; [reflexivity|].
  simpl length. replace (S (S (length l')) - 1) with (S (length (y :: l') - 1))
    by (simpl; lia).
  change (last (x :: y :: l') d) with (last (y :: l') d).
  simpl nth_error. apply IH. discriminate.
Qed.

Lemma getLastWord_total line : getLastWord line = Some (lastWordOf line).
Proof.
  unfold getLastWord, lastWordOf. cbv zeta.
  destruct (negb (nonEmpty (trim line))); [reflexivity|].
  now rewrite (nth_error_last (splitSpaces (stripPunctuation (trim line))) [])
    by apply splitSpaces_not_nil.
Qed.

Lemma mapM_total {A B} (f : A -> option B) (g : A -> B) (l : list A) :
  (forall x, f x = Some (g x)) -> mapM f l = Some (map g l).
Proof.
  intros H. induction l as [|x l IH]; simpl; [reflexivity|].
  now rewrite H, IH.
Qed.

Lemma groupLines_total lines :
  groupLines lines = Some (buildGroups lines (map lastWordOf lines)).
Proof.
  unfold groupLines. now rewrite (mapM_total _ _ _ getLastWord_total).
Qed.

Lemma splitSpaces_Forall (P : ascii -> Prop) s :
  Forall P s -> Forall (Forall P) (splitSpaces s).
Proof.
  induction 1 as [|c r Hc Hr IH]; simpl.
  - repeat constructor.
  - destruct (isSpace c).
    + destruct (startsWithSpace r); [assumption|].
      constructor; [constructor | assumption].
    + destruct (splitSpaces r) as [|piece pieces].
      * repeat constructor. assumption.
      * inversion IH; subst. constructor; [now constructor | assumption].
Qed.

Lemma splitSpaces_no_space s :
  Forall (Forall (fun c => isSpace c = false)) (splitSpaces s).
Proof.
  induction s as [|c r IH]; simpl.
  - repeat constructor.
  - destruct (isSpace c) eqn:E.
    + destruct (startsWithSpace r); [assumption|].
      constructor; [constructor | assumption].
    + destruct (splitSpaces r) as [|piece pieces].
      * repeat constructor. assumption.
      * inversion IH; subst. constructor; [now constructor | assumption].
Qed.

Lemma Forall_last {A} (Q : A -> Prop) (l : list A) (d : A) :
  Forall Q l -> Q d -> Q (last l d).
Proof.
  induction 1 as [|x l Hx Hl IH]; intros Hd; [assumption|].
  destruct l; [assumption|]. now apply IH.
Qed.

Lemma toLowerCase_idem s : toLowerCase (toLowerCase s) = toLowerCase s.
Proof.
  unfold toLowerCase. rewrite map_map. apply map_ext. apply lowerChar_idem.
Qed.

(** C6, as amended: [getLastWord] returns the empty string when the
    trimmed line is empty, and otherwise the lowercased final piece of the
    split on white space of the trimmed line without its punctuation.  The
    result has no white space, no character of the punctuation set and no
    capital A-Z, but keeps other characters outside a-z; its
    [normalizeWord] is the normalized final token. *)
Theorem getLastWord_lowercased_token (line : jsstring) :
  (trim line = [] -> getLastWord line = Some [])
  /\ (trim line <> [] ->
      getLastWord line
      = Some (toLowerCase (last (splitSpaces (stripPunctuation (trim line))) [])))
  /\ (exists w, getLastWord line = Some w
                /\ normalizeWord w = lastWord_spec line
                /\ Forall (fun c => isSpace c = false
                                    /\ isPunctuation c = false
                                    /\ between 65 90 c = false) w).
Proof.
  rewrite getLastWord_total. unfold lastWordOf, lastWord_spec.
  split; [|split].
  - intros ->. reflexivity.
  - intros H. apply nonEmpty_true in H. now rewrite H.
  - eexists. split; [reflexivity|].
    destruct (negb (nonEmpty (trim line))).
    + split; [reflexivity | constructor].
    + split.
      * now rewrite !normalizeWord_eq, toLowerCase_idem.
      * set (pieces := splitSpaces (stripPunctuation (trim line))).
        assert (H1 : Forall (fun c => isSpace c = false) (last pieces [])).
        { apply Forall_last; [apply splitSpaces_no_space | constructor]. }
        assert (H2 : Forall (fun c => isPunctuation c = false) (last pieces [])).
        { apply Forall_last; [|constructor]. apply splitSpaces_Forall.
          apply Forall_forall. intros c Hc. apply filter_In in Hc as [_ Hc].
          now apply negb_true_iff in Hc. }
        unfold toLowerCase. apply Forall_map.
        rewrite Forall_forall in *. intros c Hc.
        rewrite lowerChar_space, lowerChar_punctuation, lowerChar_not_capital.
        auto.
Qed.

Lemma getLastWord_lowercased_token_witness :
  getLastWord (lit "Hello, World!") = Some (lit "world").
Proof.
  apply (getLastWord_lowercased_token (lit "Hello, World!")).
  vm_compute. discriminate.
Defined.

(** C6 as stated fails: a hyphen is not in the punctuation set and stays
    in the last word, so the result is not the normalized token. *)
Lemma getLastWord_not_normalized :
  ~ (forall line : jsstring, getLastWord line = Some (lastWord_spec line)).
Proof.
  intros H. specialize (H (lit "so well-known")). vm_compute in H.
  discriminate H.
Qed.

(** ** Groups stay within a section *)

Section Grouping.

Variables lines lastWords : list jsstring.

Lemma In_breakPositions p :
  In p (breakPositions lines)
  <-> p < length lines /\ isBreak (lineAt lines p) = true.
Proof.
  unfold breakPositions. rewrite filter_In, in_seq. intuition lia.
Qed.

Lemma In_partners related i j :
  In j (partners lines lastWords related i) ->
  i < j < length lines
  /\ isBlank (lineAt lines j) = false
  /\ isBreak (lineAt lines j) = false
  /\ inSameSection (breakPositions lines) i j = true
  /\ related (lineAt lastWords i) (lineAt lastWords j) = true.
Proof.
  unfold partners, isBlank. rewrite filter_In, in_seq.
  intros [Hr Hc]. repeat (apply andb_true_iff in Hc as [Hc ?]).
  repeat split; try lia; try assumption.
  - now rewrite Hc.
  - now apply negb_true_iff.
Qed.

Lemma anchored_partners related i :
  anchored lines (i :: partners lines lastWords related i).
Proof.
  exists i, (partners lines lastWords related i). split; [reflexivity|].
  intros x Hx. apply In_partners in Hx. tauto.
Qed.

Lemma groupStep_anchored st i :
  allAnchored lines st -> allAnchored lines (groupStep lines lastWords st i).
Proof.
  intros [Hr Hn]. unfold groupStep.
  destruct (isBlank (lineAt lines i) || isBreak (lineAt lines i));
    [now split|].
  split; cbn [rhymeGroups nearRhymeGroups].
  - destruct (negb (inSomeGroup (rhymeGroups st) i)); [|assumption].
    destruct (1 <? length (i :: partners lines lastWords isRhyme i));
      [|assumption].
    apply Forall_app. split; [assumption|].
    constructor; [apply anchored_partners | constructor].
  - destruct (negb (inSomeGroup (nearRhymeGroups st) i)
              && negb (inSomeGroup (rhymeGroups st) i)); [|assumption].
    destruct (1 <? length (i :: partners lines lastWords isNearRhyme i));
      [|assumption].
    apply Forall_app. split; [assumption|].
    constructor; [apply anchored_partners | constructor].
Qed.

Lemma fold_groupStep_anchored (indices : list nat) st :
  allAnchored lines st ->
  allAnchored lines (fold_left (groupStep lines lastWords) indices st).
Proof.
  revert st. induction indices as [|i indices IH]; intros st H; simpl.
  - assumption.
  - apply IH. now apply groupStep_anchored.
Qed.

Lemma buildGroups_anchored : allAnchored lines (buildGroups lines lastWords).
Proof.
  apply fold_groupStep_anchored. split; constructor.
Qed.

Lemma anchored_no_break_between group a b p :
  anchored lines group -> In a group -> In b group -> a < p < b ->
  isBreak (lineAt lines p) = false.
Proof.
  intros (i & rest & -> & Hrest) Ha Hb Hp.
  destruct (isBreak (lineAt lines p)) eqn:E; [exfalso | reflexivity].
  assert (Hia : i <= a).
  { destruct Ha as [-> | Ha]; [lia|]. apply Hrest in Ha. lia. }
  destruct Hb as [-> | Hb]; [lia|].
  destruct (Hrest b Hb) as [Hlt Hsec].
  apply (proj1 (inSameSection_true _ _ _) Hsec p).
  - apply In_breakPositions. split; [lia | assumption].
  - lia.
Qed.

End Grouping.

(** C3: the grouping pass returns groups for every list of lines, and two
    indices of one group, rhyme or near-rhyme, never have a break-marker
    line strictly between them.  On the lines day / way / --- / play the
    groups are the single rhyme group of lines 0 and 1, and line 3 is in
    no group. *)
Theorem groups_within_sections :
  (forall lines : list jsstring,
     exists g,
       groupLines lines = Some g
       /\ forall group a b p,
            In group (rhymeGroups g ++ nearRhymeGroups g) ->
            In a group -> In b group -> a < p < b ->
            isBreak (lineAt lines p) = false)
  /\ groupLines dayWayPlay = Some (mkGroups [[0; 1]] [])
  /\ (forall g, groupLines dayWayPlay = Some g ->
        inSomeGroup (rhymeGroups g ++ nearRhymeGroups g) 3 = false).
Proof.
  split; [|split].
  - intros lines. eexists. split; [apply groupLines_total|].
    intros group a b p Hg Ha Hb Hp.
    destruct (buildGroups_anchored lines (map lastWordOf lines)) as [Hr Hn].
    apply (anchored_no_break_between lines group a b p); try assumption.
    rewrite Forall_forall in Hr, Hn.
    apply in_app_or in Hg as [Hg | Hg]; auto.
  - vm_compute. reflexivity.
  - intros g Hg. vm_compute in Hg. injection Hg as <-. reflexivity.
Qed.

Lemma groups_within_sections_witness :
  isBreak (lineAt [lit "day"; lit "night"; lit "way"] 1) = false.
Proof.
  destruct (proj1 groups_within_sections [lit "day"; lit "night"; lit "way"])
    as (g & Hg & H).
  assert (E : g = mkGroups [[0; 2]] []).
  { vm_compute in Hg. now injection Hg as <-. }
  apply (H [0; 2] 0 2 1).
  - rewrite E. simpl. now left.
  - simpl. now left.
  - simpl. right. now left.
  - lia.
Defined.

(** ** Lines shared by two groups *)

(** C2: on the lines cat / cat / bat the pass returns two rhyme groups
    that both hold line 2, and on cat / bat / cab line 0 is in a rhyme
    group and in a near-rhyme group. *)
Theorem groups_can_share_a_line :
  groupLines [lit "cat"; lit "cat"; lit "bat"]
  = Some (mkGroups [[0; 2]; [1; 2]] [])
  /\ groupLines [lit "cat"; lit "bat"; lit "cab"]
     = Some (mkGroups [[0; 1]] [[0; 2]]).
Proof. split; vm_compute; reflexivity. Qed.

(** ** Syllable counts *)

Lemma syllableHeuristic_floor word :
  exists n, syllableHeuristic word = JNum n /\ (1 <= n)%Z.
Proof. unfold syllableHeuristic. eexists. split; [reflexivity | lia]. Qed.

Ltac split_lookup k :=
  repeat match goal with
         | H : context [if streq ?a k then _ else _] |- _ =>
             let E := fresh "E" in
             destruct (streq a k) eqn:E;
             [apply streq_spec in E | clear E]
         end.

(** A word of letters a-z finds in [specialCases] one of its eleven
    numbers, nothing, or the inherited [constructor]. *)
Lemma getProp_specialCases (k : jsstring) :
  forallb isLetter k = true ->
  k <> lit "constructor" ->
  getProp specialCases k = None
  \/ exists n, getProp specialCases k = Some (JNum n) /\ (1 <= n)%Z.
Proof.
  intros Hl Hk.
  destruct (getProp specialCases k) as [v|] eqn:G; [right | now left].
  unfold getProp in G. cbn [specialCases Object_prototype ownProp] in G.
  split_lookup k;
    try (injection G as <-; eexists; split; [reflexivity | lia]);
    try (subst k; first [now contradiction Hk | vm_compute in Hl; discriminate Hl]).
  discriminate G.
Qed.

(** Away from the word "constructor" the count is an integer: 0 for an
    input that normalizes to the empty string, at least 1 otherwise. *)
Lemma countSyllables_integer (word : jsstring) :
  normalizeWord word <> lit "constructor" ->
  (normalizeWord word = [] -> countSyllables word = JNum 0)
  /\ (normalizeWord word <> [] ->
      exists n, countSyllables word = JNum n /\ (1 <= n)%Z).
Proof.
  rewrite normalizeWord_eq, <- keepLetters_trim. unfold countSyllables.
  set (t := trim (toLowerCase word)). set (k := keepLetters t).
  intros Hk.
  destruct (length t =? 0) eqn:Et.
  { apply Nat.eqb_eq in Et. apply length_zero_iff_nil in Et.
    subst k. rewrite Et. simpl. split; [reflexivity | congruence]. }
  destruct (length k =? 0) eqn:Ek.
  { apply Nat.eqb_eq in Ek. apply length_zero_iff_nil in Ek.
    split; [reflexivity | congruence]. }
  apply Nat.eqb_neq in Ek.
  split; [intros E; rewrite E in Ek; now simpl in Ek|]. intros _.
  assert (Hl : forallb isLetter k = true).
  { apply forallb_forall. intros c Hc. now apply filter_In in Hc. }
  destruct (getProp_specialCases k Hl Hk) as [-> | (n & -> & Hn)].
  - apply syllableHeuristic_floor.
  - exists n. split; [|assumption].
    replace (truthy (JNum n)) with true; [reflexivity|].
    simpl. symmetry. apply negb_true_iff. apply Z.eqb_neq. lia.
Qed.

(** C7: for the word "constructor", which normalizes to itself, the
    lookup in the table of special cases finds the function inherited by
    every object, and [countSyllables] returns it instead of an integer;
    the count of a line holding the word is then a string. *)
Theorem countSyllables_constructor :
  normalizeWord (lit "constructor") = lit "constructor"
  /\ countSyllables (lit "constructor") = JFunction (lit "Object")
  /\ (exists text, countLineSyllables (lit "a constructor") = JStr text).
Proof.
  split; [|split]; try (vm_compute; reflexivity).
  eexists. vm_compute. reflexivity.
Qed.

(** ** Degenerate buffers *)

Lemma degenerate_lineAt lines i :
  degenerate lines ->
  isBlank (lineAt lines i) || isBreak (lineAt lines i) = true.
Proof.
  intros H. unfold lineAt.
  destruct (nth_in_or_default i lines []) as [Hin | ->]; [|reflexivity].
  unfold degenerate in H. rewrite Forall_forall in H.
  apply orb_true_iff. now apply H.
Qed.

Lemma fold_groupStep_degenerate lines lastWords indices st :
  degenerate lines ->
  fold_left (groupStep lines lastWords) indices st = st.
Proof.
  intros H. revert st. induction indices as [|i indices IH]; intros st; simpl.
  - reflexivity.
  - rewrite IH. unfold groupStep. now rewrite degenerate_lineAt.
Qed.

Lemma syllableCell_degenerate line :
  isBlank line = true \/ isBreak line = true -> syllableCell line = [].
Proof.
  unfold syllableCell, isBlank. intros [H | H].
  - destruct (isBreak line); [reflexivity|].
    apply negb_true_iff in H. now rewrite H.
  - now rewrite H.
Qed.

Lemma rhymeIndicator_degenerate g line i :
  isBlank line = true \/ isBreak line = true ->
  rhymeIndicator g line i = NoIndicator.
Proof.
  unfold rhymeIndicator. intros H. apply orb_true_iff in H. now rewrite H.
Qed.

Lemma updateEditor_total buffer :
  exists out, updateEditor buffer = Some out.
Proof.
  unfold updateEditor. rewrite groupLines_total. eexists. reflexivity.
Qed.

(** C8: on a buffer whose lines are all blank or break markers, the empty
    buffer included, [updateEditor] throws nothing, builds no rhyme group
    and no near-rhyme group, and gives every line an empty syllable cell
    and no indicator. *)
Theorem updateEditor_degenerate (buffer : jsstring) :
  degenerate (splitLines buffer) ->
  exists out,
    updateEditor buffer = Some out
    /\ rhymeGroups (groups out) = []
    /\ nearRhymeGroups (groups out) = []
    /\ length (annotations out) = length (splitLines buffer)
    /\ Forall (fun a => syllableCount a = [] /\ indicator a = NoIndicator)
         (annotations out).
Proof.
  intros H. unfold updateEditor. rewrite groupLines_total.
  eexists. split; [reflexivity|]. cbn [groups annotations].
  unfold buildGroups. rewrite fold_groupStep_degenerate by assumption.
  repeat split.
  - unfold annotate. rewrite length_map, length_combine, length_seq. lia.
  - unfold annotate. apply Forall_forall. intros a Ha.
    apply in_map_iff in Ha as ([i line] & <- & Hin).
    apply in_combine_r in Hin. unfold degenerate in H.
    rewrite Forall_forall in H. specialize (H line Hin).
    cbn [syllableCount indicator].
    now rewrite syllableCell_degenerate, rhymeIndicator_degenerate.
Qed.

Lemma updateEditor_degenerate_witness :
  (exists out,
     updateEditor [] = Some out
     /\ rhymeGroups (groups out) = []
     /\ nearRhymeGroups (groups out) = []
     /\ length (annotations out) = length (splitLines [])
     /\ Forall (fun a => syllableCount a = [] /\ indicator a = NoIndicator)
          (annotations out))
  /\ (exists out,
        updateEditor (lit "---" ++ nl ++ lit "  " ++ nl ++ lit " --- ") = Some out
        /\ rhymeGroups (groups out) = []
        /\ nearRhymeGroups (groups out) = []
        /\ length (annotations out)
           = length (splitLines (lit "---" ++ nl ++ lit "  " ++ nl ++ lit " --- "))
        /\ Forall (fun a => syllableCount a = [] /\ indicator a = NoIndicator)
             (annotations out)).
Proof.
  split.
  - apply (updateEditor_degenerate []).
    vm_compute. repeat constructor.
  - apply (updateEditor_degenerate
             (lit "---" ++ nl ++ lit "  " ++ nl ++ lit " --- ")).
    vm_compute. repeat first [apply Forall_nil | apply Forall_cons];
      first [now left | now right].
Defined.

(** * Further properties of the analysis functions *)

(** ** The classifier reads normalized forms only *)

Lemma isRhyme_normalized a b :
  isRhyme a b = isRhyme (normalizeWord a) (normalizeWord b).
Proof. unfold isRhyme. now rewrite !normalizeWord_idem. Qed.

Lemma isNearRhyme_normalized a b :
  isNearRhyme a b = isNearRhyme (normalizeWord a) (normalizeWord b).
Proof.
  unfold isNearRhyme. now rewrite !normalizeWord_idem, <- isRhyme_normalized.
Qed.

(** X1: [isRhyme] and [isNearRhyme] depend on their words only through
    [normalizeWord]: capitals and characters outside a-z play no part. *)
Theorem classifier_reads_normalized_forms (a a' b b' : jsstring) :
  normalizeWord a = normalizeWord a' ->
  normalizeWord b = normalizeWord b' ->
  isRhyme a b = isRhyme a' b' /\ isNearRhyme a b = isNearRhyme a' b'.
Proof.
  intros Ha Hb. split.
  - rewrite (isRhyme_normalized a b), (isRhyme_normalized a' b').
    now rewrite Ha, Hb.
  - rewrite (isNearRhyme_normalized a b), (isNearRhyme_normalized a' b').
    now rewrite Ha, Hb.
Qed.

Lemma classifier_reads_normalized_forms_witness :
  isRhyme (lit "Cat!") (lit "b-a-t") = isRhyme (lit "cat") (lit "BAT")
  /\ isNearRhyme (lit "Cat!") (lit "b-a-t") = isNearRhyme (lit "cat") (lit "BAT").
Proof.
  apply (classifier_reads_normalized_forms
           (lit "Cat!") (lit "cat") (lit "b-a-t") (lit "BAT"));
    vm_compute; reflexivity.
Defined.

(** ** What never rhymes *)

Lemma getRimeParts_empty w :
  normalizeWord w = [] -> getRimeParts w = mkRimeParts [] [] [] [].
Proof. intros H. unfold getRimeParts. now rewrite H. Qed.

Lemma coda_empty_of_cluster w :
  vowelCluster (getRimeParts w) = [] -> coda (getRimeParts w) = [].
Proof.
  destruct (getRimeParts_cases w) as [_ [(_ & Hc & _) | (pre & _ & Hv & _)]];
    [now intros _ | intros H; contradiction].
Qed.

Lemma isRhyme_no_cluster a b :
  vowelCluster (getRimeParts a) = [] -> isRhyme a b = false.
Proof.
  intros H. unfold isRhyme. rewrite !getRimeParts_normalized, H.
  destruct (negb (nonEmpty (normalizeWord a)) || negb (nonEmpty (normalizeWord b))
            || streq (normalizeWord a) (normalizeWord b)); reflexivity.
Qed.

Lemma isNearRhyme_no_cluster a b :
  vowelCluster (getRimeParts a) = [] -> isNearRhyme a b = false.
Proof.
  intros H. unfold isNearRhyme, getPhoneticPattern.
  rewrite !getRimeParts_normalized. cbn [vowelSound consonantEnding].
  rewrite (coda_empty_of_cluster a H), H. cbn [toUpperCase map nonEmpty andb].
  destruct (negb (nonEmpty (normalizeWord a)) || negb (nonEmpty (normalizeWord b))
            || streq (normalizeWord a) (normalizeWord b)); [reflexivity|].
  destruct (isRhyme a b); reflexivity.
Qed.

(** X2: a pair is never both a rhyme and a near rhyme; words with the
    same normalized form are neither; and a word without a vowel cluster
    (the empty word, or one without a vowel letter) neither rhymes nor near
    rhymes with any word, on either side. *)
Theorem classifier_exclusions (a b : jsstring) :
  (isRhyme a b = true -> isNearRhyme a b = false)
  /\ (normalizeWord a = normalizeWord b ->
      isRhyme a b = false /\ isNearRhyme a b = false)
  /\ (vowelCluster (getRimeParts a) = [] ->
      isRhyme a b = false /\ isNearRhyme a b = false
      /\ isRhyme b a = false /\ isNearRhyme b a = false).
Proof.
  split; [|split].
  - intros H. unfold isNearRhyme. rewrite H.
    destruct (negb (nonEmpty (normalizeWord a)) || negb (nonEmpty (normalizeWord b))
              || streq (normalizeWord a) (normalizeWord b)); reflexivity.
  - intros H. unfold isNearRhyme, isRhyme. rewrite H, streq_refl, !orb_true_r.
    now split.
  - intros H. rewrite (isRhyme_sym b a), (isNearRhyme_sym b a).
    rewrite isRhyme_no_cluster, isNearRhyme_no_cluster by assumption.
    repeat split.
Qed.

Lemma classifier_exclusions_witness :
  isNearRhyme (lit "cat") (lit "bat") = false
  /\ (isRhyme (lit "Cat") (lit "cat!") = false
      /\ isNearRhyme (lit "Cat") (lit "cat!") = false)
  /\ (isRhyme (lit "hmm") (lit "thumb") = false
      /\ isNearRhyme (lit "hmm") (lit "thumb") = false
      /\ isRhyme (lit "thumb") (lit "hmm") = false
      /\ isNearRhyme (lit "thumb") (lit "hmm") = false).
Proof.
  split; [|split].
  - apply (proj1 (classifier_exclusions (lit "cat") (lit "bat"))).
    vm_compute. reflexivity.
  - apply (proj1 (proj2 (classifier_exclusions (lit "Cat") (lit "cat!")))).
    vm_compute. reflexivity.
  - apply (proj2 (proj2 (classifier_exclusions (lit "hmm") (lit "thumb")))).
    vm_compute. reflexivity.
Defined.

(** ** Near rhyme without the capitals *)

Lemma upperChar_vowel_inj c d :
  isVowel c = true -> isVowel d = true -> upperChar c = upperChar d -> c = d.
Proof.
  intros Hc Hd. apply isVowel_In in Hc, Hd. vm_compute in Hc, Hd.
  destruct Hc as [<-|[<-|[<-|[<-|[<-|[<-|[]]]]]]];
    destruct Hd as [<-|[<-|[<-|[<-|[<-|[<-|[]]]]]]];
    vm_compute; intros E; first [reflexivity | discriminate E].
Qed.

Lemma toUpperCase_vowels_inj u v :
  Forall (fun c => isVowel c = true) u ->
  Forall (fun c => isVowel c = true) v ->
  toUpperCase u = toUpperCase v -> u = v.
Proof.
  intros Hu. revert v. induction Hu as [|c u Hc Hu IH]; intros v Hv E.
  - destruct v; [reflexivity | discriminate E].
  - destruct Hv as [|d v Hd Hv]; [discriminate E|].
    simpl in E. injection E as E1 E2.
    f_equal; [now apply upperChar_vowel_inj | now apply IH].
Qed.

Lemma cluster_vowels w :
  Forall (fun c => isVowel c = true) (vowelCluster (getRimeParts w)).
Proof.
  destruct (getRimeParts_cases w) as [_ [(Hv & _) | (pre & _ & _ & _ & Hv & _)]].
  - rewrite Hv. constructor.
  - assumption.
Qed.

Lemma vowelSound_eq a b :
  streq (toUpperCase (vowelCluster (getRimeParts a)))
        (toUpperCase (vowelCluster (getRimeParts b)))
  = streq (vowelCluster (getRimeParts a)) (vowelCluster (getRimeParts b)).
Proof.
  destruct (streq (vowelCluster (getRimeParts a)) (vowelCluster (getRimeParts b)))
    eqn:E.
  - apply streq_spec in E. rewrite E. apply streq_refl.
  - apply streq_false. apply streq_false in E. intros H. apply E.
    apply toUpperCase_vowels_inj; auto using cluster_vowels.
Qed.

Lemma nonEmpty_toUpperCase s : nonEmpty (toUpperCase s) = nonEmpty s.
Proof. now destruct s. Qed.

(** X3: [isNearRhyme] holds exactly for a pair that is not an exact rhyme
    and has either the same non-empty vowel cluster with different codas,
    or the same non-empty coda with different vowel clusters; both words
    of such a pair have a vowel cluster and distinct normalized forms. *)
Theorem isNearRhyme_rule (a b : jsstring) :
  let pa := getRimeParts a in
  let pb := getRimeParts b in
  (isNearRhyme a b = true
   <-> isRhyme a b = false
       /\ normalizeWord a <> normalizeWord b
       /\ ((vowelCluster pa <> [] /\ vowelCluster pa = vowelCluster pb
            /\ coda pa <> coda pb)
           \/ (coda pa <> [] /\ coda pa = coda pb
               /\ vowelCluster pa <> vowelCluster pb)))
  /\ (isNearRhyme a b = true ->
      vowelCluster pa <> [] /\ vowelCluster pb <> []).
Proof.
  intros pa pb.
  assert (Hiff : isNearRhyme a b = true
   <-> isRhyme a b = false
       /\ normalizeWord a <> normalizeWord b
       /\ ((vowelCluster pa <> [] /\ vowelCluster pa = vowelCluster pb
            /\ coda pa <> coda pb)
           \/ (coda pa <> [] /\ coda pa = coda pb
               /\ vowelCluster pa <> vowelCluster pb))).
  { subst pa pb. unfold isNearRhyme, getPhoneticPattern.
    rewrite !getRimeParts_normalized. cbn [vowelSound consonantEnding].
    rewrite vowelSound_eq, nonEmpty_toUpperCase.
    set (va := vowelCluster (getRimeParts a)).
    set (vb := vowelCluster (getRimeParts b)).
    set (ca := coda (getRimeParts a)). set (cb := coda (getRimeParts b)).
    assert (Na : normalizeWord a = [] -> va = [] /\ ca = []).
    { intros H. subst va ca. now rewrite (getRimeParts_empty a H). }
    assert (Nb : normalizeWord b = [] -> vb = [] /\ cb = []).
    { intros H. subst vb cb. now rewrite (getRimeParts_empty b H). }
    destruct (nonEmpty (normalizeWord a)) eqn:Ea; cbn [negb orb].
    2:{ apply nonEmpty_false in Ea. destruct (Na Ea) as [-> ->].
        split; [discriminate|]. intros (_ & _ & [(H & _) | (H & _)]); congruence. }
    destruct (nonEmpty (normalizeWord b)) eqn:Eb; cbn [negb orb].
    2:{ apply nonEmpty_false in Eb. destruct (Nb Eb) as [Vb Cb].
        split; [discriminate|].
        intros (_ & _ & [(H & E & _) | (H & E & _)]); congruence. }
    destruct (streq (normalizeWord a) (normalizeWord b)) eqn:Eab.
    { apply streq_spec in Eab. split; [discriminate|]. intros (_ & H & _).
      contradiction. }
    apply streq_false in Eab.
    destruct (isRhyme a b) eqn:Er.
    { split; [discriminate|]. intros (H & _). discriminate H. }
    destruct (nonEmpty va) eqn:Eva, (streq va vb) eqn:Ev, (streq ca cb) eqn:Ec,
             (nonEmpty ca) eqn:Eca; cbn [andb negb];
      rewrite ?nonEmpty_true, ?nonEmpty_false, ?streq_spec, ?streq_false in *;
      (split; [intros H; try discriminate H; repeat split; auto; tauto
              | intros (_ & _ & [(H1 & H2 & H3) | (H1 & H2 & H3)]);
                try reflexivity; exfalso; congruence]). }
  split; [exact Hiff|].
  intros H. apply Hiff in H as (_ & _ & [(H1 & H2 & _) | (H1 & H2 & _)]).
  - split; [assumption | now rewrite <- H2].
  - split; intros E.
    + apply H1. now apply coda_empty_of_cluster.
    + apply H1. rewrite H2. now apply coda_empty_of_cluster.
Qed.

Lemma isNearRhyme_rule_witness :
  vowelCluster (getRimeParts (lit "light")) <> []
  /\ vowelCluster (getRimeParts (lit "lit")) <> [].
Proof.
  apply (isNearRhyme_rule (lit "light") (lit "lit")).
  vm_compute. reflexivity.
Defined.

(** ** Vowel sounds *)

Lemma vowelSoundsLoop_filter word sounds :
  vowelSoundsLoop word sounds = sounds ++ filter isVowel word.
Proof.
  revert sounds. induction word as [|c word IH]; intros sounds; simpl.
  - now rewrite app_nil_r.
  - rewrite IH. destruct (isVowel c); [|reflexivity].
    now rewrite <- app_assoc.
Qed.

Lemma filter_all {A} (f : A -> bool) l :
  Forall (fun x => f x = true) l -> filter f l = l.
Proof.
  induction 1 as [|x l Hx _ IH]; simpl; [reflexivity|]. now rewrite Hx, IH.
Qed.

Lemma filter_none {A} (f : A -> bool) l :
  Forall (fun x => f x = false) l -> filter f l = [].
Proof.
  induction 1 as [|x l Hx _ IH]; simpl; [reflexivity|]. now rewrite Hx.
Qed.

(** X4: [getVowelSounds] returns vowel letters only, it ends with the
    vowel cluster of [getRimeParts], and it is empty exactly when that
    cluster is. *)
Theorem getVowelSounds_cluster (word : jsstring) :
  Forall (fun c => In c vowels) (getVowelSounds word)
  /\ (exists before,
        getVowelSounds word = before ++ vowelCluster (getRimeParts word))
  /\ (getVowelSounds word = [] <-> vowelCluster (getRimeParts word) = []).
Proof.
  unfold getVowelSounds. rewrite vowelSoundsLoop_filter. cbn [app].
  rewrite <- normalizeWord_eq.
  split.
  { apply Forall_forall. intros c Hc. apply filter_In in Hc as [_ Hc].
    now apply isVowel_In. }
  destruct (getRimeParts_cases word)
    as [_ [(Hv & _ & _ & Hn) | (pre & Hn & Hne & _ & Hvs & Hcs)]].
  - rewrite Hv, (filter_none _ _ Hn). split; [now exists [] | tauto].
  - rewrite Hn, !filter_app, (filter_all _ _ Hvs), (filter_none _ _ Hcs),
      app_nil_r.
    split; [now exists (filter isVowel pre)|].
    split; intros H; [|contradiction].
    apply app_eq_nil in H. tauto.
Qed.

Lemma getVowelSounds_cluster_witness : getVowelSounds (lit "Tsk!") = [].
Proof.
  apply (proj2 (proj2 (getVowelSounds_cluster (lit "Tsk!")))).
  vm_compute. reflexivity.
Defined.

(** ** Syllable counts read normalized forms *)

Lemma countSyllables_eq word :
  countSyllables word = syllablesOfLetters (normalizeWord word).
Proof.
  unfold countSyllables, syllablesOfLetters.
  rewrite normalizeWord_eq. set (t := trim (toLowerCase word)).
  rewrite <- (keepLetters_trim (toLowerCase word)). fold t.
  destruct t as [|c t]; reflexivity.
Qed.

(** X5: [countSyllables] depends on its word only through
    [normalizeWord]: capitals, white space around the word and characters
    outside a-z do not change the count. *)
Theorem countSyllables_reads_normalized_form (word word' : jsstring) :
  normalizeWord word = normalizeWord word' ->
  countSyllables word = countSyllables word'.
Proof. intros H. now rewrite !countSyllables_eq, H. Qed.

Lemma countSyllables_reads_normalized_form_witness :
  countSyllables (lit " Ta-ble, ") = countSyllables (lit "table").
Proof.
  apply (countSyllables_reads_normalized_form (lit " Ta-ble, ") (lit "table")).
  vm_compute. reflexivity.
Defined.

(** ** Never more syllables than letters *)

Lemma vowelGroups_bounds word count previousWasVowel :
  (count <= vowelGroups word count previousWasVowel
   <= count + Z.of_nat (length word))%Z.
Proof.
  revert count previousWasVowel.
  induction word as [|c word IH]; intros count p.
  - simpl. lia.
  - cbn [vowelGroups]. cbv zeta.
    set (count' := (if includesVowel (Some c) && negb p
                    then count + 1 else count)%Z).
    specialize (IH count' (includesVowel (Some c))).
    assert (count <= count' <= count + 1)%Z
      by (subst count'; destruct (includesVowel (Some c) && negb p); lia).
    cbn [length]. lia.
Qed.

Lemma endsWith_spec s t :
  endsWith s t = true <-> exists before, s = before ++ t.
Proof.
  unfold endsWith. rewrite andb_true_iff, streq_spec, Nat.leb_le. split.
  - intros [H _]. exists (firstn (length s - length t) s).
    pose proof (firstn_skipn (length s - length t) s) as F.
    rewrite H in F. now symmetry.
  - intros [before ->]. rewrite length_app. split; [|lia].
    replace (length before + length t - length t) with (length before) by lia.
    rewrite skipn_app, skipn_all, Nat.sub_diag. reflexivity.
Qed.

Lemma endsWith_le_e word :
  endsWith word (lit "le") = true -> endsWith word (lit "e") = true.
Proof.
  rewrite !endsWith_spec. intros [before ->].
  exists (before ++ lit "l"). now rewrite <- app_assoc.
Qed.

Lemma syllableHeuristic_bounds word :
  word <> [] ->
  exists n, syllableHeuristic word = JNum n
            /\ (1 <= n <= Z.of_nat (length word))%Z.
Proof.
  intros Hne. unfold syllableHeuristic.
  pose proof (vowelGroups_bounds word 0 false) as Hvg.
  set (vg := vowelGroups word 0 false) in *.
  assert (Hlen : 1 <= length word) by (destruct word; [congruence | simpl; lia]).
  eexists. split; [reflexivity|].
  destruct ((2 <? length word) && endsWith word (lit "le")
            && negb (includesVowel (charAt word (length word - 3)))) eqn:Ele.
  - apply andb_true_iff in Ele as [Ele _].
    apply andb_true_iff in Ele as [El Ele].
    apply Nat.ltb_lt in El. rewrite (endsWith_le_e _ Ele). cbn [andb].
    destruct (1 <? vg)%Z eqn:E1.
    + apply Z.ltb_lt in E1. lia.
    + apply Z.ltb_ge in E1. lia.
  - destruct (endsWith word (lit "e") && (1 <? vg)%Z) eqn:Ee.
    + apply andb_true_iff in Ee as [_ E1]. apply Z.ltb_lt in E1. lia.
    + lia.
Qed.

Lemma getProp_specialCases_bound (k : jsstring) :
  forallb isLetter k = true ->
  k <> lit "constructor" ->
  getProp specialCases k = None
  \/ exists n, getProp specialCases k = Some (JNum n)
               /\ (1 <= n <= Z.of_nat (length k))%Z.
Proof.
  intros Hl Hk.
  destruct (getProp specialCases k) as [v|] eqn:G; [right | now left].
  unfold getProp in G. cbn [specialCases Object_prototype ownProp] in G.
  split_lookup k;
    try (injection G as <-; subst k; eexists; split;
         [reflexivity | vm_compute; split; discriminate]);
    try (subst k; first [now contradiction Hk | vm_compute in Hl; discriminate Hl]).
  discriminate G.
Qed.

Lemma syllablesOfLetters_bounds (k : jsstring) :
  forallb isLetter k = true ->
  k <> lit "constructor" ->
  exists n, syllablesOfLetters k = JNum n
            /\ (n = 0%Z <-> k = [])
            /\ (0 <= n <= Z.of_nat (length k))%Z.
Proof.
  intros Hl Hk. unfold syllablesOfLetters.
  destruct k as [|c k'] eqn:E.
  { exists 0%Z. simpl. repeat split; lia. }
  rewrite <- E in *. replace (length k =? 0) with false
    by (rewrite E; reflexivity).
  assert (Hne : k <> []) by (rewrite E; discriminate).
  destruct (getProp_specialCases_bound k Hl Hk) as [-> | (n & -> & Hn)].
  - destruct (syllableHeuristic_bounds k Hne) as (n & -> & Hn).
    exists n. split; [reflexivity|].
    split; [split; [lia | intros H; contradiction] | lia].
  - exists n. replace (truthy (JNum n)) with true.
    + split; [reflexivity|].
      split; [split; [lia | intros H; contradiction] | lia].
    + simpl. symmetry. apply negb_true_iff. apply Z.eqb_neq. lia.
Qed.

Lemma normalizeWord_forallb w : forallb isLetter (normalizeWord w) = true.
Proof.
  apply forallb_forall. apply Forall_forall. apply normalizeWord_letters.
Qed.

Lemma countSyllables_bounds (word : jsstring) :
  normalizeWord word <> lit "constructor" ->
  exists n, countSyllables word = JNum n
            /\ (n = 0%Z <-> normalizeWord word = [])
            /\ (0 <= n <= Z.of_nat (length (normalizeWord word)))%Z.
Proof.
  intros H. rewrite countSyllables_eq.
  apply syllablesOfLetters_bounds; [apply normalizeWord_forallb | assumption].
Qed.

(** X6: away from the word "constructor", [countSyllables] returns an
    integer between 0 and the number of letters of the normalized word,
    and 0 only for a word without letters. *)
Theorem countSyllables_at_most_letters (word : jsstring) :
  normalizeWord word <> lit "constructor" ->
  exists n, countSyllables word = JNum n
            /\ (n = 0%Z <-> normalizeWord word = [])
            /\ (0 <= n <= Z.of_nat (length (normalizeWord word)))%Z.
Proof. apply countSyllables_bounds. Qed.

Lemma countSyllables_at_most_letters_witness :
  exists n, countSyllables (lit "Rhythm") = JNum n
            /\ (n = 0%Z <-> normalizeWord (lit "Rhythm") = [])
            /\ (0 <= n <= Z.of_nat (length (normalizeWord (lit "Rhythm"))))%Z.
Proof.
  apply (countSyllables_at_most_letters (lit "Rhythm")).
  vm_compute. discriminate.
Defined.

(** ** The count of a line *)

Lemma trimStart_toLowerCase s :
  trimStart (toLowerCase s) = toLowerCase (trimStart s).
Proof.
  induction s as [|c s IH]; simpl; [reflexivity|].
  rewrite lowerChar_space. now destruct (isSpace c).
Qed.

Lemma trim_toLowerCase s : trim (toLowerCase s) = toLowerCase (trim s).
Proof.
  unfold trim, trimEnd, toLowerCase.
  fold (toLowerCase s). rewrite trimStart_toLowerCase. unfold toLowerCase.
  rewrite <- map_rev. fold (toLowerCase (rev (trimStart s))).
  rewrite trimStart_toLowerCase. unfold toLowerCase. now rewrite map_rev.
Qed.

Lemma normalizeWord_blank s : trim s = [] -> normalizeWord s = [].
Proof.
  intros H. rewrite normalizeWord_eq, <- keepLetters_trim, trim_toLowerCase, H.
  reflexivity.
Qed.

Lemma concat_splitSpaces s :
  concat (splitSpaces s) = filter (fun c => negb (isSpace c)) s.
Proof.
  induction s as [|c r IH]; simpl; [reflexivity|].
  destruct (isSpace c); simpl.
  - destruct (startsWithSpace r); assumption.
  - pose proof (splitSpaces_not_nil r) as Hne.
    destruct (splitSpaces r) as [|piece pieces]; [congruence|].
    simpl in *. now rewrite IH.
Qed.

Lemma normalizeWord_app a b :
  normalizeWord (a ++ b) = normalizeWord a ++ normalizeWord b.
Proof.
  rewrite !normalizeWord_eq. unfold toLowerCase, keepLetters.
  now rewrite map_app, filter_app.
Qed.

Lemma normalizeWord_concat pieces :
  normalizeWord (concat pieces) = concat (map normalizeWord pieces).
Proof.
  induction pieces as [|p pieces IH]; simpl; [reflexivity|].
  now rewrite normalizeWord_app, IH.
Qed.

Lemma normalizeWord_no_spaces s :
  normalizeWord (filter (fun c => negb (isSpace c)) s) = normalizeWord s.
Proof.
  rewrite !normalizeWord_eq.
  induction s as [|c s IH]; simpl; [reflexivity|].
  destruct (isSpace c) eqn:E; simpl.
  - rewrite IH.
    assert (isLetter (lowerChar c) = false) as ->; [|reflexivity].
    apply space_not_letter. now rewrite lowerChar_space.
  - now rewrite IH.
Qed.

Lemma normalizeWord_splitSpaces line :
  normalizeWord line = concat (map normalizeWord (splitSpaces line)).
Proof.
  now rewrite <- normalizeWord_concat, concat_splitSpaces, normalizeWord_no_spaces.
Qed.

Lemma sum_tokens tokens total :
  Forall (fun word => normalizeWord word <> lit "constructor") tokens ->
  exists n,
    fold_left
      (fun total word =>
         if nonEmpty (trim word) then jsAdd total (countSyllables word) else total)
      tokens (JNum total) = JNum n
    /\ (n = total <-> concat (map normalizeWord tokens) = [])
    /\ (total <= n
        <= total + Z.of_nat (length (concat (map normalizeWord tokens))))%Z.
Proof.
  intros H. revert total. induction H as [|word tokens Hw _ IH]; intros total.
  - exists total. simpl. repeat split; lia.
  - cbn [fold_left map concat]. rewrite length_app.
    destruct (nonEmpty (trim word)) eqn:E.
    + destruct (countSyllables_bounds word Hw) as (k & -> & Hz & Hk).
      cbn [jsAdd]. destruct (IH (total + k)%Z) as (n & -> & Hn0 & Hn).
      exists n. split; [reflexivity|]. split; [|lia]. split.
      * intros ->. assert (k = 0%Z) by lia. subst k.
        rewrite (proj1 Hz eq_refl). apply Hn0. lia.
      * intros Hc. apply app_eq_nil in Hc as [Hc1 Hc2].
        apply Hz in Hc1. subst k. pose proof (proj2 Hn0 Hc2). lia.
    + apply nonEmpty_false in E. rewrite (normalizeWord_blank _ E).
      destruct (IH total) as (n & -> & Hn0 & Hn).
      exists n. split; [reflexivity|]. cbn [app length]. split; [assumption | lia].
Qed.

(** X7: when no word of the line normalizes to "constructor",
    [countLineSyllables] returns an integer between 0 and the number of
    letters of the line, and 0 exactly when the line has no letter. *)
Theorem countLineSyllables_integer (line : jsstring) :
  Forall (fun word => normalizeWord word <> lit "constructor") (splitSpaces line) ->
  exists n, countLineSyllables line = JNum n
            /\ (n = 0%Z <-> normalizeWord line = [])
            /\ (0 <= n <= Z.of_nat (length (normalizeWord line)))%Z.
Proof.
  intros H. unfold countLineSyllables.
  destruct (nonEmpty (trim line)) eqn:E; cbn [negb].
  - rewrite (normalizeWord_splitSpaces line).
    destruct (sum_tokens (splitSpaces line) 0%Z H) as (n & -> & Hn0 & Hn).
    exists n. split; [reflexivity|]. split; [assumption | lia].
  - apply nonEmpty_false in E. rewrite (normalizeWord_blank _ E).
    exists 0%Z. simpl. repeat split; lia.
Qed.

Lemma countLineSyllables_integer_witness :
  exists n, countLineSyllables (lit "The table is on fire") = JNum n
            /\ (n = 0%Z <-> normalizeWord (lit "The table is on fire") = [])
            /\ (0 <= n
                <= Z.of_nat (length (normalizeWord (lit "The table is on fire"))))%Z.
Proof.
  apply (countLineSyllables_integer (lit "The table is on fire")).
  vm_compute. repeat (apply Forall_cons; [discriminate|]). apply Forall_nil.
Defined.

(** * The button handlers *)

(** ** Splitting into lines and joining back *)

Lemma splitLines_not_nil s : splitLines s <> [].
Proof.
  destruct s as [|c r]; simpl; [discriminate|].
  destruct (Ascii.eqb c "010"%char); [discriminate|].
  destruct (splitLines r); discriminate.
Qed.

Lemma splitLines_app_nl a b :
  splitLines (a ++ nl ++ b) = splitLines a ++ splitLines b.
Proof.
  induction a as [|c a IH]; [reflexivity|].
  change ((c :: a) ++ nl ++ b) with (c :: (a ++ nl ++ b)).
  cbn [splitLines]. rewrite IH.
  destruct (Ascii.eqb c "010"%char); [reflexivity|].
  pose proof (splitLines_not_nil a) as Hne.
  destruct (splitLines a) as [|line rest]; [congruence | reflexivity].
Qed.

Lemma splitLines_newlineFree line : newlineFree line -> splitLines line = [line].
Proof.
  induction 1 as [|c line Hc _ IH]; [reflexivity|].
  cbn [splitLines]. now rewrite Hc, IH.
Qed.

Lemma splitLines_lines s : Forall newlineFree (splitLines s).
Proof.
  induction s as [|c r IH]; cbn [splitLines].
  - repeat constructor.
  - destruct (Ascii.eqb c "010"%char) eqn:E.
    + constructor; [constructor | assumption].
    + destruct (splitLines r) as [|line rest].
      * repeat constructor. assumption.
      * inversion IH; subst. constructor; [now constructor | assumption].
Qed.

Lemma joinLines_cons line rest :
  rest <> [] -> joinLines (line :: rest) = line ++ nl ++ joinLines rest.
Proof. destruct rest; [congruence | reflexivity]. Qed.

Lemma joinLines_splitLines s : joinLines (splitLines s) = s.
Proof.
  induction s as [|c r IH]; [reflexivity|]. cbn [splitLines].
  pose proof (splitLines_not_nil r) as Hne.
  destruct (Ascii.eqb c "010"%char) eqn:E.
  - apply Ascii.eqb_eq in E. subst c.
    rewrite joinLines_cons by assumption. now rewrite IH.
  - destruct (splitLines r) as [|line rest]; [congruence|].
    destruct rest as [|line' rest'].
    + simpl in *. now rewrite IH.
    + rewrite joinLines_cons by discriminate.
      rewrite joinLines_cons in IH by discriminate.
      rewrite <- IH. reflexivity.
Qed.

Lemma splitLines_joinLines lines :
  lines <> [] -> Forall newlineFree lines -> splitLines (joinLines lines) = lines.
Proof.
  intros Hne H. induction H as [|line rest Hl Hr IH]; [congruence|].
  destruct rest as [|line' rest'].
  - now apply splitLines_newlineFree.
  - rewrite joinLines_cons by discriminate.
    rewrite splitLines_app_nl, (splitLines_newlineFree _ Hl), IH by discriminate.
    reflexivity.
Qed.

(** X8: splitting a buffer into lines and joining the lines with
    newlines gives the buffer back; the lines of a buffer are never none
    and hold no newline; and joining a non-empty list of such lines and
    splitting again gives the list back. *)
Theorem split_join_round_trip :
  (forall buffer, joinLines (splitLines buffer) = buffer)
  /\ (forall buffer,
        splitLines buffer <> [] /\ Forall newlineFree (splitLines buffer))
  /\ (forall lines,
        lines <> [] -> Forall newlineFree lines ->
        splitLines (joinLines lines) = lines).
Proof.
  split; [exact joinLines_splitLines|]. split.
  - intros buffer. split; [apply splitLines_not_nil | apply splitLines_lines].
  - exact splitLines_joinLines.
Qed.

Lemma split_join_round_trip_witness :
  splitLines (joinLines [lit "day"; []; lit "---"]) = [lit "day"; []; lit "---"].
Proof.
  apply (proj2 (proj2 split_join_round_trip)).
  - discriminate.
  - repeat (apply Forall_cons; [vm_compute; repeat constructor|]).
    apply Forall_nil.
Defined.

(** ** Inserting a break *)

Lemma length_splitLines_app a b :
  length (splitLines (a ++ b)) + 1
  = length (splitLines a) + length (splitLines b).
Proof.
  induction a as [|c a IH]; [simpl; lia|].
  change ((c :: a) ++ b) with (c :: (a ++ b)). cbn [splitLines].
  destruct (Ascii.eqb c "010"%char); [simpl; lia|].
  pose proof (splitLines_not_nil a) as H1.
  pose proof (splitLines_not_nil (a ++ b)) as H2.
  destruct (splitLines a), (splitLines (a ++ b)); try congruence.
  simpl in *. lia.
Qed.

Lemma insertBreakText_eq value cursorPosition :
  insertBreakText value cursorPosition
  = firstn cursorPosition value ++ nl ++ (lit "---" ++ nl ++ skipn cursorPosition value).
Proof. unfold insertBreakText. now rewrite <- !app_assoc. Qed.

Lemma insertBreak_splitLines value cursorPosition :
  splitLines (insertBreakText value cursorPosition)
  = splitLines (firstn cursorPosition value)
    ++ [BREAK_MARKER] ++ splitLines (skipn cursorPosition value).
Proof.
  rewrite insertBreakText_eq, !splitLines_app_nl. reflexivity.
Qed.

(** X9: the [insertBreak] handler puts one line holding the break marker
    between the lines of the text before the cursor and the lines of the
    text after it, so the buffer has two lines more; the cursor it sets
    stands right after the inserted marker line. *)
Theorem insertBreak_lines (value : jsstring) (cursorPosition : nat) :
  let text := insertBreakText value cursorPosition in
  splitLines text
  = splitLines (firstn cursorPosition value)
    ++ [BREAK_MARKER] ++ splitLines (skipn cursorPosition value)
  /\ length (splitLines text) = length (splitLines value) + 2
  /\ firstn (insertBreakCursor cursorPosition) text
     = firstn cursorPosition value ++ nl ++ BREAK_MARKER ++ nl
  /\ skipn (insertBreakCursor cursorPosition) text = skipn cursorPosition value.
Proof.
  intros text. subst text. split; [apply insertBreak_splitLines|]. split.
  { rewrite insertBreak_splitLines, !length_app.
    pose proof (length_splitLines_app (firstn cursorPosition value)
                  (skipn cursorPosition value)) as H.
    rewrite firstn_skipn in H. cbn [length app]. lia. }
  unfold insertBreakText, insertBreakCursor.
  set (before := firstn cursorPosition value).
  set (after := skipn cursorPosition value).
  set (marker := nl ++ lit "---" ++ nl).
  assert (Hm : length marker = 5) by reflexivity.
  destruct (Nat.le_gt_cases cursorPosition (length value)) as [Hle | Hgt].
  - assert (Hb : length before = cursorPosition).
    { subst before. rewrite length_firstn. lia. }
    assert (Hlen : length (before ++ marker) = cursorPosition + 5)
      by (rewrite length_app; lia).
    rewrite app_assoc. split.
    + rewrite firstn_app, <- Hlen, firstn_all, Nat.sub_diag. simpl.
      now rewrite app_nil_r.
    + rewrite skipn_app, <- Hlen, skipn_all, Nat.sub_diag. reflexivity.
  - assert (Ha : after = []).
    { subst after. apply skipn_all2. lia. }
    assert (Hb : before = value).
    { subst before. apply firstn_all2. lia. }
    rewrite Ha, Hb, app_nil_r. split.
    + apply firstn_all2. rewrite length_app.
      change (nl ++ BREAK_MARKER ++ nl) with marker. lia.
    + apply skipn_all2. rewrite length_app. lia.
Qed.

(** ** Removing blank lines *)

Lemma keeps_content line :
  negb (streq (trim line) []) || streq (trim line) (lit "---")
  = negb (isBlank line).
Proof.
  unfold isBlank. destruct (trim line) as [|c t]; [reflexivity|].
  reflexivity.
Qed.

Lemma removeBlankLinesText_eq value :
  removeBlankLinesText value
  = joinLines (filter (fun line => negb (isBlank line)) (splitLines value)).
Proof.
  unfold removeBlankLinesText. f_equal. apply filter_ext. apply keeps_content.
Qed.

Lemma filter_twice {A} (f : A -> bool) l : filter f (filter f l) = filter f l.
Proof.
  apply filter_all. apply Forall_forall. intros x Hx. now apply filter_In in Hx.
Qed.

(** X10: the [removeBlankLines] handler leaves exactly the lines that are
    not blank, break markers included, in their order; when every line is
    blank the buffer becomes empty (one blank line); and running it twice
    changes nothing more. *)
Theorem removeBlankLines_lines (value : jsstring) :
  let kept := filter (fun line => negb (isBlank line)) (splitLines value) in
  (kept <> [] -> splitLines (removeBlankLinesText value) = kept)
  /\ (kept = [] -> removeBlankLinesText value = [])
  /\ removeBlankLinesText (removeBlankLinesText value)
     = removeBlankLinesText value.
Proof.
  intros kept.
  assert (H1 : kept <> [] -> splitLines (removeBlankLinesText value) = kept).
  { intros Hne. rewrite removeBlankLinesText_eq. fold kept.
    apply splitLines_joinLines; [assumption|].
    apply Forall_forall. intros line Hin. apply filter_In in Hin as [Hin _].
    pose proof (splitLines_lines value) as H. rewrite Forall_forall in H.
    now apply H. }
  assert (H2 : kept = [] -> removeBlankLinesText value = []).
  { intros E. rewrite removeBlankLinesText_eq. fold kept. now rewrite E. }
  split; [assumption|]. split; [assumption|].
  destruct kept as [|line rest] eqn:E.
  - rewrite (H2 eq_refl). reflexivity.
  - rewrite (removeBlankLinesText_eq (removeBlankLinesText value)).
    rewrite H1 by discriminate. rewrite <- E. subst kept.
    rewrite filter_twice. symmetry. apply removeBlankLinesText_eq.
Qed.

Lemma removeBlankLines_lines_witness :
  splitLines (removeBlankLinesText (lit "day" ++ nl ++ lit "  " ++ nl ++ lit "---"))
  = [lit "day"; lit "---"]
  /\ removeBlankLinesText (lit " " ++ nl ++ nl) = [].
Proof.
  split.
  - apply (proj1 (removeBlankLines_lines
                    (lit "day" ++ nl ++ lit "  " ++ nl ++ lit "---"))).
    vm_compute. discriminate.
  - apply (proj1 (proj2 (removeBlankLines_lines (lit " " ++ nl ++ nl)))).
    vm_compute. reflexivity.
Defined.

(** ** The stored text follows the editor *)





(** * The grouping pass *)

Lemma seq_sorted start len : StronglySorted lt (seq start len).
Proof.
  revert start. induction len as [|len IH]; intros start; simpl; constructor.
  - apply IH.
  - apply Forall_forall. intros x Hx. apply in_seq in Hx. lia.
Qed.

Lemma filter_sorted (f : nat -> bool) l :
  StronglySorted lt l -> StronglySorted lt (filter f l).
Proof.
  induction 1 as [|x l Hl IH Hx]; simpl; [constructor|].
  destruct (f x); [|assumption]. constructor; [assumption|].
  apply Forall_forall. intros y Hy. apply filter_In in Hy as [Hy _].
  rewrite Forall_forall in Hx. now apply Hx.
Qed.

Lemma sorted_snoc l x :
  StronglySorted lt l -> Forall (fun a => a < x) l -> StronglySorted lt (l ++ [x]).
Proof.
  induction 1 as [|y l Hl IH Hy]; intros Hx; simpl.
  - repeat constructor.
  - inversion Hx; subst. constructor; [now apply IH|].
    apply Forall_app. split; [assumption | now constructor].
Qed.

Lemma fold_seq_invariant {S} (P : nat -> S -> Prop) (step : S -> nat -> S) n st :
  P 0 st ->
  (forall i st, i < n -> P i st -> P (Datatypes.S i) (step st i)) ->
  P n (fold_left step (seq 0 n) st).
Proof.
  intros H0 Hstep. induction n as [|n IH]; [exact H0|].
  rewrite seq_S, fold_left_app. simpl. apply Hstep; [lia|].
  apply IH. intros i st' Hi. apply Hstep. lia.
Qed.

Lemma includes_In group i : includes group i = true <-> In i group.
Proof.
  unfold includes. rewrite existsb_exists. split.
  - intros [x [Hx E]]. apply Nat.eqb_eq in E. now subst.
  - intros H. exists i. split; [assumption | apply Nat.eqb_refl].
Qed.

Lemma inSomeGroup_In groups i :
  inSomeGroup groups i = true <-> exists group, In group groups /\ In i group.
Proof.
  unfold inSomeGroup. rewrite existsb_exists.
  split; intros [g [Hg H]]; exists g; (split; [assumption|]);
    now apply includes_In.
Qed.

Lemma inSomeGroup_app groups group i :
  inSomeGroup (groups ++ [group]) i = inSomeGroup groups i || includes group i.
Proof. unfold inSomeGroup. rewrite existsb_app. simpl. now rewrite orb_false_r. Qed.

Section GroupingLoop.

Variables lines lastWords : list jsstring.

Lemma In_partners_iff related i j :
  In j (partners lines lastWords related i)
  <-> i < j < length lines
      /\ isContent (lineAt lines j) = true
      /\ inSameSection (breakPositions lines) i j = true
      /\ related (lineAt lastWords i) (lineAt lastWords j) = true.
Proof.
  unfold partners, isContent, isBlank. rewrite filter_In, in_seq.
  rewrite negb_involutive, !andb_true_iff. intuition lia.
Qed.

Lemma scan_sorted related i :
  StronglySorted lt (i :: partners lines lastWords related i).
Proof.
  constructor.
  - unfold partners. apply filter_sorted, seq_sorted.
  - apply Forall_forall. intros j Hj. apply In_partners_iff in Hj. lia.
Qed.

Lemma anchors_app groups i rest :
  anchors (groups ++ [i :: rest]) = anchors groups ++ [i].
Proof. unfold anchors. now rewrite map_app. Qed.

Lemma Forall_below_S (l : list nat) n :
  Forall (fun a => a < n) l -> Forall (fun a => a < S n) l.
Proof. apply Forall_impl. intros a Ha. lia. Qed.

Lemma more_than_one (i : nat) (p : list nat) :
  (1 <? length (i :: p)) = match p with [] => false | _ => true end.
Proof. destruct p as [|? [|? ?]]; reflexivity. Qed.

(** What one iteration does to each list: nothing, or it appends the scan
    of [i]. *)
Lemma groupStep_rhymeGroups st i :
  rhymeGroups (groupStep lines lastWords st i) = rhymeGroups st
  \/ (isContent (lineAt lines i) = true
      /\ partners lines lastWords isRhyme i <> []
      /\ rhymeGroups (groupStep lines lastWords st i)
         = rhymeGroups st ++ [i :: partners lines lastWords isRhyme i]).
Proof.
  unfold groupStep, isContent.
  destruct (isBlank (lineAt lines i)), (isBreak (lineAt lines i));
    cbn [orb negb andb]; try (now left).
  cbn [rhymeGroups].
  destruct (inSomeGroup (rhymeGroups st) i); cbn [negb]; [now left|].
  rewrite more_than_one.
  destruct (partners lines lastWords isRhyme i) eqn:E; [now left|].
  right. repeat split. discriminate.
Qed.

Lemma groupStep_nearRhymeGroups st i :
  nearRhymeGroups (groupStep lines lastWords st i) = nearRhymeGroups st
  \/ (isContent (lineAt lines i) = true
      /\ partners lines lastWords isNearRhyme i <> []
      /\ nearRhymeGroups (groupStep lines lastWords st i)
         = nearRhymeGroups st ++ [i :: partners lines lastWords isNearRhyme i]).
Proof.
  unfold groupStep, isContent.
  destruct (isBlank (lineAt lines i)), (isBreak (lineAt lines i));
    cbn [orb negb andb]; try (now left).
  cbn [nearRhymeGroups].
  destruct (negb (inSomeGroup (nearRhymeGroups st) i)
            && negb (inSomeGroup (rhymeGroups st) i)); [|now left].
  rewrite more_than_one.
  destruct (partners lines lastWords isNearRhyme i) eqn:E; [now left|].
  right. repeat split. discriminate.
Qed.

(** The content line of an iteration ends up in a group when it has a
    partner. *)
Lemma groupStep_covers st i :
  isContent (lineAt lines i) = true ->
  (partners lines lastWords isRhyme i <> [] ->
   inSomeGroup (rhymeGroups (groupStep lines lastWords st i)) i = true)
  /\ (partners lines lastWords isNearRhyme i <> [] ->
      inSomeGroup (rhymeGroups (groupStep lines lastWords st i)) i = true
      \/ inSomeGroup (nearRhymeGroups (groupStep lines lastWords st i)) i = true).
Proof.
  intros Hc. unfold isContent in Hc. apply andb_true_iff in Hc as [H1 H2].
  apply negb_true_iff in H1, H2. unfold groupStep. rewrite H1, H2.
  cbn [orb rhymeGroups nearRhymeGroups]. rewrite !more_than_one.
  assert (Hi : forall p, includes (i :: p) i = true).
  { intros p. apply includes_In. now left. }
  destruct (inSomeGroup (rhymeGroups st) i) eqn:Er; cbn [negb andb].
  - split; intros _; auto.
  - split.
    + intros Hp. destruct (partners lines lastWords isRhyme i); [congruence|].
      now rewrite inSomeGroup_app, Hi, orb_true_r.
    + intros Hp. right.
      destruct (inSomeGroup (nearRhymeGroups st) i) eqn:En; cbn [negb andb];
        [assumption|].
      destruct (partners lines lastWords isNearRhyme i); [congruence|].
      now rewrite inSomeGroup_app, Hi, orb_true_r.
Qed.

Lemma groupStep_keeps st i k :
  (inSomeGroup (rhymeGroups st) k = true ->
   inSomeGroup (rhymeGroups (groupStep lines lastWords st i)) k = true)
  /\ (inSomeGroup (nearRhymeGroups st) k = true ->
      inSomeGroup (nearRhymeGroups (groupStep lines lastWords st i)) k = true).
Proof.
  split; intros H.
  - destruct (groupStep_rhymeGroups st i) as [-> | (_ & _ & ->)]; [assumption|].
    now rewrite inSomeGroup_app, H.
  - destruct (groupStep_nearRhymeGroups st i) as [-> | (_ & _ & ->)]; [assumption|].
    now rewrite inSomeGroup_app, H.
Qed.

Lemma pushed_invariant related i gs gs' :
  i < length lines ->
  gs' = gs
  \/ (isContent (lineAt lines i) = true
      /\ partners lines lastWords related i <> []
      /\ gs' = gs ++ [i :: partners lines lastWords related i]) ->
  Forall (scanOf lines lastWords related) gs ->
  StronglySorted lt (anchors gs) ->
  Forall (fun a => a < i) (anchors gs) ->
  Forall (scanOf lines lastWords related) gs'
  /\ StronglySorted lt (anchors gs')
  /\ Forall (fun a => a < S i) (anchors gs').
Proof.
  intros Hi [-> | (Hc & Hp & ->)] Hs Ha Hb.
  - auto using Forall_below_S.
  - rewrite anchors_app. repeat split.
    + apply Forall_app. split; [assumption|]. constructor; [|constructor].
      exists i. auto.
    + now apply sorted_snoc.
    + apply Forall_app. split; [now apply Forall_below_S | repeat constructor].
Qed.

Lemma groupStep_invariant i st :
  i < length lines ->
  loopInvariant lines lastWords i st ->
  loopInvariant lines lastWords (S i) (groupStep lines lastWords st i).
Proof.
  intros Hi (Hr & Hn & Sr & Br & Sn & Bn & Hcov).
  destruct (pushed_invariant isRhyme i _ _ Hi (groupStep_rhymeGroups st i) Hr Sr Br)
    as (Hr' & Sr' & Br').
  destruct (pushed_invariant isNearRhyme i _ _ Hi (groupStep_nearRhymeGroups st i)
              Hn Sn Bn) as (Hn' & Sn' & Bn').
  unfold loopInvariant. repeat (split; [assumption|]).
  intros k Hk Hck. destruct (Nat.eq_dec k i) as [-> | Hne].
  - now apply groupStep_covers.
  - assert (Hlt : k < i) by lia. destruct (Hcov k Hlt Hck) as [C1 C2].
    destruct (groupStep_keeps st i k) as [K1 K2].
    split; intros Hp; [now apply K1, C1|].
    destruct (C2 Hp); [left; now apply K1 | right; now apply K2].
Qed.

Lemma buildGroups_invariant :
  loopInvariant lines lastWords (length lines) (buildGroups lines lastWords).
Proof.
  unfold buildGroups.
  apply (fold_seq_invariant (loopInvariant lines lastWords)).
  - unfold loopInvariant. simpl. repeat split; try constructor; lia.
  - intros i st Hi. now apply groupStep_invariant.
Qed.

End GroupingLoop.

Lemma lineAt_lastWords lines i :
  lineAt (map lastWordOf lines) i = lastWordOf (lineAt lines i).
Proof. unfold lineAt. change (@nil ascii) with (lastWordOf []) at 1. apply map_nth. Qed.

Lemma groupLines_invariant lines :
  exists g,
    groupLines lines = Some g
    /\ loopInvariant lines (map lastWordOf lines) (length lines) g.
Proof.
  eexists. split; [apply groupLines_total | apply buildGroups_invariant].
Qed.

Lemma scanOf_members lines lastWords related group :
  scanOf lines lastWords related group ->
  2 <= length group
  /\ StronglySorted lt group
  /\ forall x, In x group ->
       x < length lines
       /\ isBlank (lineAt lines x) = false
       /\ isBreak (lineAt lines x) = false.
Proof.
  intros (i & Hi & Hc & Hp & ->). split; [|split].
  - destruct (partners lines lastWords related i); [congruence | simpl; lia].
  - apply scan_sorted.
  - assert (Hcontent : forall x, isContent (lineAt lines x) = true ->
              isBlank (lineAt lines x) = false /\ isBreak (lineAt lines x) = false).
    { intros x H. unfold isContent in H. apply andb_true_iff in H as [H1 H2].
      now apply negb_true_iff in H1, H2. }
    intros x [<- | Hx].
    + split; [assumption | now apply Hcontent].
    + apply In_partners_iff in Hx as (Hr & Hcx & _).
      split; [lia | now apply Hcontent].
Qed.

(** X12: every group the pass returns, rhyme or near-rhyme, has at least
    two members, lists its line indices in strictly increasing order, and
    holds only lines of the buffer that are neither blank nor break
    markers. *)
Theorem group_members (lines : list jsstring) :
  exists g,
    groupLines lines = Some g
    /\ forall group,
         In group (rhymeGroups g ++ nearRhymeGroups g) ->
         2 <= length group
         /\ StronglySorted lt group
         /\ forall x, In x group ->
              x < length lines
              /\ isBlank (lineAt lines x) = false
              /\ isBreak (lineAt lines x) = false.
Proof.
  destruct (groupLines_invariant lines) as (g & Hg & Hr & Hn & _).
  exists g. split; [assumption|]. intros group Hin.
  rewrite Forall_forall in Hr, Hn.
  apply in_app_or in Hin as [Hin | Hin];
    eapply scanOf_members; eauto.
Qed.

Lemma group_members_witness :
  2 <= length [0; 2]
  /\ StronglySorted lt [0; 2]
  /\ forall x, In x [0; 2] ->
       x < length [lit "day"; lit " "; lit "way"]
       /\ isBlank (lineAt [lit "day"; lit " "; lit "way"] x) = false
       /\ isBreak (lineAt [lit "day"; lit " "; lit "way"] x) = false.
Proof.
  destruct (group_members [lit "day"; lit " "; lit "way"]) as (g & Hg & H).
  apply (H [0; 2]).
  vm_compute in Hg. injection Hg as <-. simpl. now left.
Defined.

Lemma scanOf_rule lines related group :
  scanOf lines (map lastWordOf lines) related group ->
  exists i rest,
    group = i :: rest
    /\ isContent (lineAt lines i) = true
    /\ forall j,
         In j rest
         <-> i < j < length lines
             /\ isContent (lineAt lines j) = true
             /\ inSameSection (breakPositions lines) i j = true
             /\ exists wi wj,
                  getLastWord (lineAt lines i) = Some wi
                  /\ getLastWord (lineAt lines j) = Some wj
                  /\ related wi wj = true.
Proof.
  intros (i & Hi & Hc & Hp & ->).
  exists i, (partners lines (map lastWordOf lines) related i).
  split; [reflexivity|]. split; [assumption|].
  intros j. rewrite In_partners_iff, !lineAt_lastWords. split.
  - intros (H1 & H2 & H3 & H4). repeat split; try assumption; try lia.
    exists (lastWordOf (lineAt lines i)), (lastWordOf (lineAt lines j)).
    rewrite !getLastWord_total. auto.
  - intros (H1 & H2 & H3 & wi & wj & Ei & Ej & H4).
    rewrite getLastWord_total in Ei, Ej. injection Ei as <-. injection Ej as <-.
    auto.
Qed.

(** X13: every rhyme group is a content line, its anchor, followed by
    exactly the later content lines of the anchor's section whose last word
    rhymes with the anchor's last word; every near-rhyme group is the same
    with [isNearRhyme].  Members are compared with the anchor only. *)
Theorem group_is_anchor_scan (lines : list jsstring) :
  exists g,
    groupLines lines = Some g
    /\ (forall group, In group (rhymeGroups g) ->
          exists i rest,
            group = i :: rest
            /\ isContent (lineAt lines i) = true
            /\ forall j,
                 In j rest
                 <-> i < j < length lines
                     /\ isContent (lineAt lines j) = true
                     /\ inSameSection (breakPositions lines) i j = true
                     /\ exists wi wj,
                          getLastWord (lineAt lines i) = Some wi
                          /\ getLastWord (lineAt lines j) = Some wj
                          /\ isRhyme wi wj = true)
    /\ (forall group, In group (nearRhymeGroups g) ->
          exists i rest,
            group = i :: rest
            /\ isContent (lineAt lines i) = true
            /\ forall j,
                 In j rest
                 <-> i < j < length lines
                     /\ isContent (lineAt lines j) = true
                     /\ inSameSection (breakPositions lines) i j = true
                     /\ exists wi wj,
                          getLastWord (lineAt lines i) = Some wi
                          /\ getLastWord (lineAt lines j) = Some wj
                          /\ isNearRhyme wi wj = true).
Proof.
  destruct (groupLines_invariant lines) as (g & Hg & Hr & Hn & _).
  exists g. split; [assumption|].
  rewrite Forall_forall in Hr, Hn.
  split; intros group Hin; apply scanOf_rule; auto.
Qed.

Lemma group_is_anchor_scan_witness :
  exists i rest,
    [0; 2] = i :: rest
    /\ isContent (lineAt [lit "a cat"; lit "a dog"; lit "the bat"] i) = true
    /\ forall j,
         In j rest
         <-> i < j < length [lit "a cat"; lit "a dog"; lit "the bat"]
             /\ isContent (lineAt [lit "a cat"; lit "a dog"; lit "the bat"] j) = true
             /\ inSameSection
                  (breakPositions [lit "a cat"; lit "a dog"; lit "the bat"]) i j = true
             /\ exists wi wj,
                  getLastWord (lineAt [lit "a cat"; lit "a dog"; lit "the bat"] i)
                  = Some wi
                  /\ getLastWord (lineAt [lit "a cat"; lit "a dog"; lit "the bat"] j)
                     = Some wj
                  /\ isRhyme wi wj = true.
Proof.
  destruct (group_is_anchor_scan [lit "a cat"; lit "a dog"; lit "the bat"])
    as (g & Hg & H & _).
  apply (H [0; 2]).
  vm_compute in Hg. injection Hg as <-. simpl. now left.
Defined.

(** X14: in each of the two lists the groups come in strictly increasing
    order of their first line, so no line starts two groups of one kind,
    and every first line is a line of the buffer. *)
Theorem group_anchors_increase (lines : list jsstring) :
  exists g,
    groupLines lines = Some g
    /\ StronglySorted lt (anchors (rhymeGroups g))
    /\ StronglySorted lt (anchors (nearRhymeGroups g))
    /\ Forall (fun a => a < length lines)
         (anchors (rhymeGroups g) ++ anchors (nearRhymeGroups g)).
Proof.
  destruct (groupLines_invariant lines) as (g & Hg & _ & _ & Sr & Br & Sn & Bn & _).
  exists g. repeat split; try assumption. apply Forall_app. now split.
Qed.

(** ** Indicators *)

Lemma findIndex_Some groups i k :
  findIndex groups i = Some k ->
  exists group,
    nth_error groups k = Some group
    /\ In i group
    /\ forall k' group',
         k' < k -> nth_error groups k' = Some group' -> ~ In i group'.
Proof.
  revert k. induction groups as [|g rest IH]; intros k H; [discriminate|].
  simpl in H. destruct (includes g i) eqn:E.
  - injection H as <-. exists g. split; [reflexivity|].
    split; [now apply includes_In|]. intros k' group' Hk. lia.
  - destruct (findIndex rest i) as [k0|] eqn:F; [|discriminate].
    injection H as <-. destruct (IH k0 eq_refl) as (group & Hn & Hin & Hearlier).
    exists group. split; [assumption|]. split; [assumption|].
    intros [|k'] group' Hk Hg'.
    + simpl in Hg'. injection Hg' as <-. intros Hi.
      apply includes_In in Hi. congruence.
    + simpl in Hg'. apply (Hearlier k' group'); [lia | assumption].
Qed.

Lemma findIndex_None groups i :
  findIndex groups i = None <-> inSomeGroup groups i = false.
Proof.
  induction groups as [|g rest IH]; simpl; [tauto|].
  destruct (includes g i); simpl.
  - split; discriminate.
  - rewrite <- IH. destruct (findIndex rest i); split; congruence.
Qed.

(** X15: a blank or break-marker line has no indicator.  A content line
    has a rhyme dot exactly when it is in a rhyme group, whatever its
    near-rhyme groups; a near-rhyme dot when it is in a near-rhyme group
    and in no rhyme group; no indicator when it is in no group.  The
    colour is below 30 and is the position, modulo 30, of the first group
    of the list that holds the line. *)
Theorem indicator_reflects_membership (g : Groups) (line : jsstring) (i : nat) :
  (isContent line = false -> rhymeIndicator g line i = NoIndicator)
  /\ (isContent line = true ->
      match rhymeIndicator g line i with
      | RhymeDot c =>
          c < 30
          /\ exists k group,
               c = k mod 30
               /\ nth_error (rhymeGroups g) k = Some group
               /\ In i group
               /\ forall k' group',
                    k' < k -> nth_error (rhymeGroups g) k' = Some group' ->
                    ~ In i group'
      | NearRhymeDot c =>
          inSomeGroup (rhymeGroups g) i = false
          /\ c < 30
          /\ exists k group,
               c = k mod 30
               /\ nth_error (nearRhymeGroups g) k = Some group
               /\ In i group
               /\ forall k' group',
                    k' < k -> nth_error (nearRhymeGroups g) k' = Some group' ->
                    ~ In i group'
      | NoIndicator =>
          inSomeGroup (rhymeGroups g) i = false
          /\ inSomeGroup (nearRhymeGroups g) i = false
      end).
Proof.
  unfold rhymeIndicator, isContent. split.
  - intros H. destruct (isBlank line), (isBreak line); try reflexivity.
    discriminate H.
  - intros H. apply andb_true_iff in H as [H1 H2].
    apply negb_true_iff in H1, H2. rewrite H1, H2. cbn [orb].
    destruct (findIndex (rhymeGroups g) i) as [k|] eqn:Fr.
    + split; [apply Nat.mod_upper_bound; discriminate|].
      destruct (findIndex_Some _ _ _ Fr) as (group & Hg).
      exists k, group. auto.
    + apply findIndex_None in Fr.
      destruct (findIndex (nearRhymeGroups g) i) as [k|] eqn:Fn.
      * split; [assumption|].
        split; [apply Nat.mod_upper_bound; discriminate|].
        destruct (findIndex_Some _ _ _ Fn) as (group & Hg).
        exists k, group. auto.
      * apply findIndex_None in Fn. now split.
Qed.

Lemma indicator_reflects_membership_witness :
  rhymeIndicator (mkGroups [[0; 1]] [[0; 2]]) [] 0 = NoIndicator
  /\ match rhymeIndicator (mkGroups [[0; 1]] [[0; 2]]) (lit "cab") 2 with
     | NearRhymeDot c => c < 30
     | _ => False
     end.
Proof.
  split.
  - apply (proj1 (indicator_reflects_membership (mkGroups [[0; 1]] [[0; 2]]) [] 0)).
    reflexivity.
  - pose proof (proj2 (indicator_reflects_membership
                         (mkGroups [[0; 1]] [[0; 2]]) (lit "cab") 2) eq_refl) as H.
    destruct (rhymeIndicator (mkGroups [[0; 1]] [[0; 2]]) (lit "cab") 2) eqn:E;
      try (vm_compute in E; discriminate E).
    tauto.
Defined.

Lemma findIndex_inSomeGroup groups i :
  inSomeGroup groups i = true -> exists k, findIndex groups i = Some k.
Proof.
  intros H. destruct (findIndex groups i) as [k|] eqn:F; [now exists k|].
  apply findIndex_None in F. congruence.
Qed.

(** X16: when two content lines of one section have last words that
    rhyme, the earlier line is in a rhyme group and shows a rhyme dot; when
    the last words are a near rhyme, the earlier line shows a rhyme dot or
    a near-rhyme dot. *)
Theorem earlier_line_gets_a_dot
    (lines : list jsstring) (i j : nat) (wi wj : jsstring) :
  i < j < length lines ->
  isContent (lineAt lines i) = true ->
  isContent (lineAt lines j) = true ->
  inSameSection (breakPositions lines) i j = true ->
  getLastWord (lineAt lines i) = Some wi ->
  getLastWord (lineAt lines j) = Some wj ->
  exists g,
    groupLines lines = Some g
    /\ (isRhyme wi wj = true ->
        inSomeGroup (rhymeGroups g) i = true
        /\ exists c, rhymeIndicator g (lineAt lines i) i = RhymeDot c)
    /\ (isNearRhyme wi wj = true ->
        exists c, rhymeIndicator g (lineAt lines i) i = RhymeDot c
                  \/ rhymeIndicator g (lineAt lines i) i = NearRhymeDot c).
Proof.
  intros Hij Hci Hcj Hsec Ei Ej.
  destruct (groupLines_invariant lines) as (g & Hg & _ & _ & _ & _ & _ & _ & Hcov).
  exists g. split; [assumption|].
  rewrite getLastWord_total in Ei, Ej. injection Ei as <-. injection Ej as <-.
  assert (Hi : i < length lines) by lia.
  destruct (Hcov i Hi Hci) as [C1 C2].
  assert (Hpart : forall related,
             related (lastWordOf (lineAt lines i)) (lastWordOf (lineAt lines j)) = true ->
             partners lines (map lastWordOf lines) related i <> []).
  { intros related H E.
    assert (Hin : In j (partners lines (map lastWordOf lines) related i)).
    { apply In_partners_iff. rewrite !lineAt_lastWords. auto. }
    rewrite E in Hin. contradiction. }
  assert (Hnb : isBlank (lineAt lines i) || isBreak (lineAt lines i) = false).
  { unfold isContent in Hci. apply andb_true_iff in Hci as [H1 H2].
    apply negb_true_iff in H1, H2. now rewrite H1, H2. }
  unfold rhymeIndicator. rewrite Hnb.
  split.
  - intros H. specialize (C1 (Hpart _ H)). split; [assumption|].
    destruct (findIndex_inSomeGroup _ _ C1) as [k ->]. eauto.
  - intros H. destruct (C2 (Hpart _ H)) as [C | C].
    + destruct (findIndex_inSomeGroup _ _ C) as [k ->]. eauto.
    + destruct (findIndex (rhymeGroups g) i) as [k|]; [eauto|].
      destruct (findIndex_inSomeGroup _ _ C) as [k ->]. eauto.
Qed.

Lemma earlier_line_gets_a_dot_witness :
  exists g,
    groupLines [lit "the bat"; lit "a cat"; lit "one bat"] = Some g
    /\ (isRhyme (lit "cat") (lit "bat") = true ->
        inSomeGroup (rhymeGroups g) 1 = true
        /\ exists c,
             rhymeIndicator g (lineAt [lit "the bat"; lit "a cat"; lit "one bat"] 1) 1
             = RhymeDot c)
    /\ (isNearRhyme (lit "cat") (lit "bat") = true ->
        exists c,
          rhymeIndicator g (lineAt [lit "the bat"; lit "a cat"; lit "one bat"] 1) 1
          = RhymeDot c
          \/ rhymeIndicator g (lineAt [lit "the bat"; lit "a cat"; lit "one bat"] 1) 1
             = NearRhymeDot c).
Proof.
  apply (earlier_line_gets_a_dot
           [lit "the bat"; lit "a cat"; lit "one bat"] 1 2 (lit "cat") (lit "bat"));
    try reflexivity.
  simpl. lia.
Defined.

(** ** A break inserted by the button separates *)

Lemma isBreak_marker : isBreak BREAK_MARKER = true.
Proof. reflexivity. Qed.

(** X17: after the [insertBreak] handler the line at the position of the
    cursor's line break is the marker, no group of the new buffer holds
    that line, and no group holds both a line before it and a line after
    it. *)
Theorem insertBreak_separates (value : jsstring) (cursorPosition : nat) :
  let lines := splitLines (insertBreakText value cursorPosition) in
  let k := length (splitLines (firstn cursorPosition value)) in
  lineAt lines k = BREAK_MARKER
  /\ exists g,
       groupLines lines = Some g
       /\ forall group a b,
            In group (rhymeGroups g ++ nearRhymeGroups g) ->
            In a group -> In b group ->
            a <> k /\ (a < k <-> b < k).
Proof.
  intros lines k.
  assert (Hk : lineAt lines k = BREAK_MARKER).
  { subst lines k. rewrite insertBreak_splitLines. unfold lineAt.
    rewrite app_nth2 by lia. now rewrite Nat.sub_diag. }
  split; [assumption|].
  destruct (groupLines_invariant lines) as (g & Hg & Hr & Hn & _).
  exists g. split; [assumption|]. intros group a b Hin Ha Hb.
  assert (Hscan : exists related, scanOf lines (map lastWordOf lines) related group).
  { rewrite Forall_forall in Hr, Hn.
    apply in_app_or in Hin as [Hin | Hin]; eauto. }
  destruct Hscan as [related Hscan].
  destruct (scanOf_members _ _ _ _ Hscan) as (_ & _ & Hmem).
  assert (Hnot : forall x, In x group -> x <> k).
  { intros x Hx ->. destruct (Hmem k Hx) as (_ & _ & Hbr).
    rewrite Hk, isBreak_marker in Hbr. discriminate. }
  assert (Hanch : anchored lines group).
  { destruct Hscan as (i & _ & _ & _ & ->).
    apply anchored_partners. }
  assert (Hbetween : forall x y, In x group -> In y group -> x < k < y -> False).
  { intros x y Hx Hy Hxy.
    pose proof (anchored_no_break_between lines group x y k Hanch Hx Hy Hxy) as H.
    rewrite Hk, isBreak_marker in H. discriminate. }
  split; [now apply Hnot|].
  pose proof (Hnot a Ha). pose proof (Hnot b Hb).
  split; intros Hlt.
  - destruct (Nat.lt_ge_cases b k) as [|Hge]; [assumption|].
    exfalso. apply (Hbetween a b); auto. lia.
  - destruct (Nat.lt_ge_cases a k) as [|Hge]; [assumption|].
    exfalso. apply (Hbetween b a); auto. lia.
Qed.

Lemma insertBreak_separates_witness :
  0 <> length (splitLines (firstn 7 (lit "day" ++ nl ++ lit "way" ++ nl ++ lit "play")))
  /\ (0 < length (splitLines
                    (firstn 7 (lit "day" ++ nl ++ lit "way" ++ nl ++ lit "play")))
      <-> 1 < length (splitLines
                        (firstn 7 (lit "day" ++ nl ++ lit "way" ++ nl ++ lit "play")))).
Proof.
  destruct (insertBreak_separates
              (lit "day" ++ nl ++ lit "way" ++ nl ++ lit "play") 7)
    as (_ & g & Hg & H).
  apply (H [0; 1] 0 1).
  - vm_compute in Hg. injection Hg as <-. simpl. now left.
  - simpl. now left.
  - simpl. right. now left.
Defined.

(** ** One annotation per line *)









(** ** Sections are classes of an equivalence *)

(** X19: for a fixed set of break positions [inSameSection] is reflexive,
    symmetric and transitive on all line indices, so the sections it
    defines partition the lines. *)
Theorem inSameSection_equivalence (bps : list nat) (i j k : nat) :
  inSameSection bps i i = true
  /\ inSameSection bps i j = inSameSection bps j i
  /\ (inSameSection bps i j = true -> inSameSection bps j k = true ->
      inSameSection bps i k = true).
Proof.
  split; [|split].
  - apply inSameSection_true. intros p _. lia.
  - destruct (inSameSection bps i j) eqn:E1, (inSameSection bps j i) eqn:E2;
      try reflexivity.
    + rewrite <- E2. symmetry. apply inSameSection_true.
      intros p Hp. pose proof (proj1 (inSameSection_true _ _ _) E1 p Hp). lia.
    + rewrite <- E1. apply inSameSection_true.
      intros p Hp. pose proof (proj1 (inSameSection_true _ _ _) E2 p Hp). lia.
  - intros H1 H2. apply inSameSection_true. intros p Hp.
    pose proof (proj1 (inSameSection_true _ _ _) H1 p Hp).
    pose proof (proj1 (inSameSection_true _ _ _) H2 p Hp). lia.
Qed.

Lemma inSameSection_equivalence_witness : inSameSection [2; 5] 4 3 = true.
Proof.
  apply (proj2 (proj2 (inSameSection_equivalence [2; 5] 4 2 3))); reflexivity.
Defined.

(** ** Normalization *)

(** X20: [normalizeWord] returns letters a-z only, never more characters
    than it was given, normalizing twice is normalizing once, and the
    normalized form of a concatenation is the concatenation of the
    normalized forms. *)
Theorem normalizeWord_properties (a b : jsstring) :
  Forall (fun c => isLetter c = true) (normalizeWord a)
  /\ length (normalizeWord a) <= length a
  /\ normalizeWord (normalizeWord a) = normalizeWord a
  /\ normalizeWord (a ++ b) = normalizeWord a ++ normalizeWord b.
Proof.
  split; [apply normalizeWord_letters|]. split; [|split].
  - rewrite normalizeWord_eq. unfold keepLetters, toLowerCase.
    rewrite <- (length_map lowerChar a). apply filter_length_le.
  - apply normalizeWord_idem.
  - apply normalizeWord_app.
Qed.

(** ** The final word of a line *)

Lemma space_not_punctuation c : isSpace c = true -> isPunctuation c = false.
Proof. each_ascii c. Qed.

Lemma trimStart_spaceFree s :
  Forall (fun x => isSpace x = false) s -> trimStart s = s.
Proof. intros H. destruct H as [|x s Hx _]; simpl; [reflexivity | now rewrite Hx]. Qed.

Lemma trimEnd_word before word :
  word <> [] -> Forall (fun x => isSpace x = false) word ->
  trimEnd (before ++ word) = before ++ word.
Proof.
  intros Hne Hw. unfold trimEnd. rewrite rev_app_distr.
  assert (Hr : Forall (fun x => isSpace x = false) (rev word))
    by now apply Forall_rev.
  destruct (rev word) as [|d r] eqn:E.
  - apply (f_equal (@rev ascii)) in E. rewrite rev_involutive in E.
    simpl in E. contradiction.
  - inversion Hr as [|? ? Hd _]; subst. simpl. rewrite Hd.
    change (d :: r ++ rev before) with ((d :: r) ++ rev before).
    rewrite <- E, <- rev_app_distr. apply rev_involutive.
Qed.

Lemma trimStart_before before c word :
  isSpace c = true -> Forall (fun x => isSpace x = false) word ->
  trimStart (before ++ c :: word) = word
  \/ exists kept, trimStart (before ++ c :: word) = kept ++ c :: word.
Proof.
  intros Hc Hw. induction before as [|d before IH]; simpl.
  - left. rewrite Hc. now apply trimStart_spaceFree.
  - destruct (isSpace d); [assumption|]. right. now exists (d :: before).
Qed.

Lemma splitSpaces_spaceFree w :
  Forall (fun x => isSpace x = false) w -> splitSpaces w = [w].
Proof.
  induction 1 as [|x w Hx _ IH]; simpl; [reflexivity|]. now rewrite Hx, IH.
Qed.

Lemma startsWithSpace_spaceFree w :
  Forall (fun x => isSpace x = false) w -> startsWithSpace w = false.
Proof. intros H. destruct H; simpl; auto. Qed.

Lemma splitSpaces_final y c w :
  isSpace c = true -> Forall (fun x => isSpace x = false) w ->
  exists first rest,
    splitSpaces (y ++ c :: w) = first :: rest /\ rest <> [] /\ last rest [] = w.
Proof.
  intros Hc Hw. induction y as [|d y (first & rest & E & Hne & Hl)].
  - exists [], [w]. simpl. rewrite Hc, (startsWithSpace_spaceFree _ Hw),
      (splitSpaces_spaceFree _ Hw). repeat split. discriminate.
  - change ((d :: y) ++ c :: w) with (d :: (y ++ c :: w)). cbn [splitSpaces].
    rewrite E. destruct (isSpace d).
    + destruct (startsWithSpace (y ++ c :: w)).
      * exists first, rest. auto.
      * exists [], (first :: rest). repeat split; [discriminate|].
        destruct rest; [congruence | assumption].
    + exists (d :: first), rest. auto.
Qed.

Lemma stripPunctuation_spaceFree w :
  Forall (fun x => isSpace x = false) w ->
  Forall (fun x => isSpace x = false) (stripPunctuation w).
Proof.
  intros H. apply Forall_forall. intros x Hx. apply filter_In in Hx as [Hx _].
  rewrite Forall_forall in H. now apply H.
Qed.

Lemma lastWordOf_final before c word :
  isSpace c = true -> word <> [] ->
  Forall (fun x => isSpace x = false) word ->
  lastWordOf (before ++ c :: word) = toLowerCase (stripPunctuation word)
  /\ lastWordOf word = toLowerCase (stripPunctuation word).
Proof.
  intros Hc Hne Hw.
  pose proof (stripPunctuation_spaceFree _ Hw) as Hs.
  pose proof (trimEnd_word [] word Hne Hw) as Tw. cbn [app] in Tw.
  split.
  - unfold lastWordOf, trim.
    destruct (trimStart_before before c word Hc Hw) as [-> | [kept ->]].
    + rewrite Tw.
      replace (nonEmpty word) with true by (destruct word; [congruence | reflexivity]).
      cbn [negb]. now rewrite (splitSpaces_spaceFree _ Hs).
    + change (kept ++ c :: word) with (kept ++ [c] ++ word).
      rewrite app_assoc, (trimEnd_word (kept ++ [c]) word Hne Hw).
      replace (nonEmpty ((kept ++ [c]) ++ word)) with true
        by (destruct kept; reflexivity).
      cbn [negb]. rewrite <- app_assoc. unfold stripPunctuation.
      rewrite filter_app. cbn [app filter].
      rewrite (space_not_punctuation c Hc). cbn [negb].
      destruct (splitSpaces_final
                  (filter (fun c0 => negb (isPunctuation c0)) kept) c
                  (stripPunctuation word) Hc Hs) as (first & rest & E & Hr & Hl).
      unfold stripPunctuation in E. rewrite E.
      destruct rest as [|piece rest']; [congruence|].
      change (last (first :: piece :: rest') []) with (last (piece :: rest') []).
      now rewrite Hl.
  - unfold lastWordOf, trim. rewrite (trimStart_spaceFree _ Hw).
    rewrite Tw.
    replace (nonEmpty word) with true by (destruct word; [congruence | reflexivity]).
    cbn [negb]. now rewrite (splitSpaces_spaceFree _ Hs).
Qed.

(** X21: when a line ends with a non-empty word free of white space,
    standing alone or after a white-space character, [getLastWord]
    returns that word in lower case without the characters of the
    punctuation set, whatever comes before it. *)
Theorem getLastWord_final_word (before word : jsstring) (c : ascii) :
  isSpace c = true ->
  word <> [] ->
  Forall (fun x => isSpace x = false) word ->
  getLastWord (before ++ c :: word) = Some (toLowerCase (stripPunctuation word))
  /\ getLastWord word = Some (toLowerCase (stripPunctuation word)).
Proof.
  intros Hc Hne Hw. rewrite !getLastWord_total.
  destruct (lastWordOf_final before c word Hc Hne Hw) as [-> ->]. now split.
Qed.

Lemma getLastWord_final_word_witness :
  getLastWord (lit "  Hold me, " ++ " "%char :: lit "(Tonight!)")
  = Some (toLowerCase (stripPunctuation (lit "(Tonight!)")))
  /\ getLastWord (lit "(Tonight!)")
     = Some (toLowerCase (stripPunctuation (lit "(Tonight!)"))).
Proof.
  apply (getLastWord_final_word (lit "  Hold me, ") (lit "(Tonight!)") " "%char).
  - reflexivity.
  - discriminate.
  - vm_compute. repeat constructor.
Defined.

(** * Rhyme between different words is transitive *)

(** The decomposition of a normalized word with a vowel cluster: what
    stands before the cluster is empty or ends with a letter that is not a
    vowel. *)
Lemma getRimeParts_maximal (w : jsstring) :
  vowelCluster (getRimeParts w) <> [] ->
  exists pre,
    normalizeWord w = pre ++ vowelCluster (getRimeParts w) ++ coda (getRimeParts w)
    /\ (pre = [] \/ exists pre' x, pre = pre' ++ [x] /\ isVowel x = false)
    /\ Forall (fun c => isVowel c = true) (vowelCluster (getRimeParts w))
    /\ Forall (fun c => isVowel c = false) (coda (getRimeParts w))
    /\ rime (getRimeParts w)
       = vowelCluster (getRimeParts w) ++ coda (getRimeParts w)
    /\ ending (getRimeParts w) = sliceLast3 (normalizeWord w).
Proof.
  unfold getRimeParts. set (normalized := normalizeWord w).
  destruct normalized as [|c0 w0] eqn:En; [simpl; congruence|].
  rewrite <- En. replace (nonEmpty normalized) with true by now rewrite En.
  cbn [negb]. rewrite codaLoop_scan.
  destruct (scanDown_spec normalized (fun o => negb (includesVowel o))
              (length normalized) [] (le_n _))
    as (m & cd & E1 & Hm & Hf1 & Hall1 & _).
  rewrite E1, app_nil_r, vowelLoop_scan.
  destruct (scanDown_spec normalized includesVowel m [] Hm)
    as (k & vc & E2 & Hk & Hf2 & Hall2 & Hstop2).
  rewrite E2, app_nil_r. rewrite firstn_all in Hf1.
  destruct vc as [|v vc]; [simpl; congruence|]. cbn [nonEmpty negb].
  cbn [vowelCluster coda rime ending]. intros _.
  exists (firstn k normalized). repeat split.
  - rewrite Hf1 at 1. rewrite Hf2. now rewrite <- app_assoc.
  - destruct Hstop2 as [-> | (x & index & -> & Hx & Hv)]; [now left|].
    right. exists (firstn index normalized), x. split; [|exact Hv].
    now apply firstn_snoc.
  - assumption.
  - eapply Forall_impl; [|exact Hall1]. simpl. intros a Ha.
    now apply negb_true_iff in Ha.
Qed.

(** A run of non-vowels followed by a run of vowels, at the head of a
    string whose rest does not start with a vowel, is determined by the
    string. *)
Lemma vowel_run_unique v1 v2 p1 p2 :
  Forall (fun c => isVowel c = true) v1 ->
  Forall (fun c => isVowel c = true) v2 ->
  headNotVowel p1 -> headNotVowel p2 ->
  v1 ++ p1 = v2 ++ p2 -> v1 = v2.
Proof.
  intros H1. revert v2. induction H1 as [|x v1 Hx _ IH]; intros v2 H2 P1 P2 E.
  - destruct H2 as [|y v2 Hy _]; [reflexivity|].
    simpl in E. subst p1. simpl in P1. congruence.
  - destruct H2 as [|y v2 Hy H2].
    + simpl in E. subst p2. simpl in P2. congruence.
    + simpl in E. injection E as -> E. f_equal. now apply IH.
Qed.

Lemma runs_unique c1 c2 v1 v2 p1 p2 :
  Forall (fun c => isVowel c = false) c1 ->
  Forall (fun c => isVowel c = false) c2 ->
  Forall (fun c => isVowel c = true) v1 ->
  Forall (fun c => isVowel c = true) v2 ->
  v1 <> [] -> v2 <> [] ->
  headNotVowel p1 -> headNotVowel p2 ->
  c1 ++ v1 ++ p1 = c2 ++ v2 ++ p2 ->
  c1 = c2 /\ v1 = v2.
Proof.
  intros C1. revert c2.
  induction C1 as [|x c1 Hx _ IH]; intros c2 C2 V1 V2 N1 N2 P1 P2 E.
  - destruct C2 as [|y c2 Hy _].
    + split; [reflexivity|]. exact (vowel_run_unique v1 v2 p1 p2 V1 V2 P1 P2 E).
    + destruct V1 as [|a v1 Ha _]; [congruence|].
      simpl in E. injection E as -> _. congruence.
  - destruct C2 as [|y c2 Hy C2].
    + destruct V2 as [|a v2 Ha _]; [congruence|].
      simpl in E. injection E as -> _. congruence.
    + simpl in E. injection E as -> E.
      destruct (IH c2 C2 V1 V2 N1 N2 P1 P2 E) as [-> ->]. now split.
Qed.

Lemma headNotVowel_rev pre :
  pre = [] \/ (exists pre' x, pre = pre' ++ [x] /\ isVowel x = false) ->
  headNotVowel (rev pre).
Proof.
  intros [-> | (pre' & x & -> & Hx)]; [exact I|].
  rewrite rev_app_distr. exact Hx.
Qed.

(** Any such decomposition of the normalized word is the one
    [getRimeParts] returns. *)
Lemma rime_of_decomposition w pre v c :
  normalizeWord w = pre ++ v ++ c ->
  v <> [] ->
  Forall (fun x => isVowel x = true) v ->
  Forall (fun x => isVowel x = false) c ->
  pre = [] \/ (exists pre' x, pre = pre' ++ [x] /\ isVowel x = false) ->
  vowelCluster (getRimeParts w) = v
  /\ coda (getRimeParts w) = c
  /\ rime (getRimeParts w) = v ++ c.
Proof.
  intros En Hv Vv Vc Hpre.
  assert (Hvc : vowelCluster (getRimeParts w) <> []).
  { destruct (getRimeParts_cases w) as [_ [(_ & _ & _ & Hn) | (q & _ & H & _)]];
      [|assumption].
    exfalso. rewrite En in Hn. apply Forall_app in Hn as [_ Hn].
    apply Forall_app in Hn as [Hn _].
    destruct v as [|x v]; [congruence|].
    inversion Hn; subst. inversion Vv; subst. congruence. }
  destruct (getRimeParts_maximal w Hvc) as (q & Eq & Hq & Wv & Wc & Er & _).
  rewrite En in Eq. apply (f_equal (@rev ascii)) in Eq.
  rewrite !rev_app_distr, <- !app_assoc in Eq.
  destruct (runs_unique (rev c) (rev (coda (getRimeParts w)))
              (rev v) (rev (vowelCluster (getRimeParts w)))
              (rev pre) (rev q)) as [E1 E2];
    try (apply Forall_rev; assumption);
    try (now apply headNotVowel_rev);
    try assumption.
  - intros H. apply (f_equal (@rev ascii)) in H. rewrite rev_involutive in H.
    contradiction.
  - intros H. apply (f_equal (@rev ascii)) in H. rewrite rev_involutive in H.
    contradiction.
  - apply (f_equal (@rev ascii)) in E1, E2. rewrite !rev_involutive in E1, E2.
    rewrite Er, <- E1, <- E2. auto.
Qed.

Lemma sliceLast3_app s t :
  length t <= 3 ->
  sliceLast3 (s ++ t) = skipn (length s + length t - 3) s ++ t.
Proof.
  intros H. unfold sliceLast3. rewrite length_app, skipn_app.
  replace (length s + length t - 3 - length s) with 0 by lia. reflexivity.
Qed.

Lemma sliceLast3_long s t :
  3 <= length t -> sliceLast3 (s ++ t) = sliceLast3 t.
Proof.
  intros H. unfold sliceLast3. rewrite length_app, skipn_app.
  rewrite skipn_all2 by lia.
  replace (length s + length t - 3 - length s) with (length t - 3) by lia.
  reflexivity.
Qed.

Lemma sliceLast3_short s : length s <= 3 -> sliceLast3 s = s.
Proof.
  intros H. unfold sliceLast3. replace (length s - 3) with 0 by lia. reflexivity.
Qed.

Lemma length_sliceLast3 s : length (sliceLast3 s) = Nat.min 3 (length s).
Proof. unfold sliceLast3. rewrite length_skipn. lia. Qed.

Lemma isRhyme_true_iff a b :
  isRhyme a b = true
  <-> normalizeWord a <> normalizeWord b
      /\ vowelCluster (getRimeParts a) <> []
      /\ vowelCluster (getRimeParts b) <> []
      /\ (rime (getRimeParts a) = rime (getRimeParts b)
          \/ (ending (getRimeParts a) = ending (getRimeParts b)
              /\ 2 <= length (ending (getRimeParts a)))).
Proof.
  unfold isRhyme. rewrite !getRimeParts_normalized.
  assert (Na : normalizeWord a = [] -> vowelCluster (getRimeParts a) = []).
  { intros H. now rewrite (getRimeParts_empty a H). }
  assert (Nb : normalizeWord b = [] -> vowelCluster (getRimeParts b) = []).
  { intros H. now rewrite (getRimeParts_empty b H). }
  destruct (nonEmpty (normalizeWord a)) eqn:Ea; cbn [negb orb].
  2:{ apply nonEmpty_false in Ea. split; [discriminate|].
      intros (_ & H & _). exfalso. now apply H, Na. }
  destruct (nonEmpty (normalizeWord b)) eqn:Eb; cbn [negb orb].
  2:{ apply nonEmpty_false in Eb. split; [discriminate|].
      intros (_ & _ & H & _). exfalso. now apply H, Nb. }
  destruct (streq (normalizeWord a) (normalizeWord b)) eqn:Eab.
  { apply streq_spec in Eab. split; [discriminate|]. intros (H & _).
    contradiction. }
  apply streq_false in Eab.
  destruct (nonEmpty (vowelCluster (getRimeParts a))) eqn:Va; cbn [negb orb].
  2:{ apply nonEmpty_false in Va. split; [discriminate|].
      intros (_ & H & _). contradiction. }
  destruct (nonEmpty (vowelCluster (getRimeParts b))) eqn:Vb; cbn [negb orb].
  2:{ apply nonEmpty_false in Vb. split; [discriminate|].
      intros (_ & _ & H & _). contradiction. }
  apply nonEmpty_true in Va, Vb.
  destruct (streq (rime (getRimeParts a)) (rime (getRimeParts b))) eqn:Er.
  { apply streq_spec in Er. split; [|reflexivity]. intros _.
    repeat (split; [assumption|]). now left. }
  apply streq_false in Er.
  destruct (streq (ending (getRimeParts a)) (ending (getRimeParts b))) eqn:Ee;
    cbn [andb].
  - apply streq_spec in Ee.
    destruct (2 <=? length (ending (getRimeParts a))) eqn:El.
    + apply Nat.leb_le in El. split; [|reflexivity]. intros _.
      repeat (split; [assumption|]). right. now split.
    + apply Nat.leb_gt in El. split; [discriminate|].
      intros (_ & _ & _ & [H | (_ & H)]); [contradiction | lia].
  - apply streq_false in Ee. split; [discriminate|].
    intros (_ & _ & _ & [H | (H & _)]); contradiction.
Qed.

(** Equal rimes on one side and equal endings on the other still give a
    rhyme. *)
Lemma rime_then_ending a b c :
  vowelCluster (getRimeParts a) <> [] ->
  vowelCluster (getRimeParts b) <> [] ->
  normalizeWord b <> normalizeWord c ->
  rime (getRimeParts a) = rime (getRimeParts b) ->
  ending (getRimeParts b) = ending (getRimeParts c) ->
  2 <= length (ending (getRimeParts b)) ->
  rime (getRimeParts a) = rime (getRimeParts c)
  \/ (ending (getRimeParts a) = ending (getRimeParts c)
      /\ 2 <= length (ending (getRimeParts a))).
Proof.
  intros Va Vb Hbc Er Ee El.
  destruct (getRimeParts_maximal a Va) as (pa & Na & _ & _ & _ & Ra & Ea).
  destruct (getRimeParts_maximal b Vb) as (pb & Nb & Hpb & Wv & Wc & Rb & Eb).
  destruct (getRimeParts_cases c) as [Ec _]. cbv zeta in Ec.
  rewrite <- Rb in Nb. rewrite <- Ra in Na.
  destruct (Nat.le_gt_cases 3 (length (rime (getRimeParts b)))) as [Hlong | Hshort].
  - right. assert (E : ending (getRimeParts a) = ending (getRimeParts b)).
    { rewrite Ea, Eb, Na, Nb, !sliceLast3_long by (rewrite ?Er; assumption).
      now rewrite Er. }
    rewrite E. split; assumption.
  - left. rewrite Er.
    assert (Hlen : 3 <= length (normalizeWord b)).
    { destruct (Nat.le_gt_cases 3 (length (normalizeWord b))) as [|Hlt];
        [assumption|]. exfalso. apply Hbc.
      assert (E1 : ending (getRimeParts b) = normalizeWord b)
        by (rewrite Eb; apply sliceLast3_short; lia).
      assert (L : length (sliceLast3 (normalizeWord c)) = length (normalizeWord b))
        by (rewrite <- Ec, <- Ee, E1; reflexivity).
      rewrite length_sliceLast3 in L.
      rewrite <- E1, Ee, Ec. apply sliceLast3_short. lia. }
    destruct Hpb as [-> | (pre' & x & -> & Hx)].
    { simpl in Nb. rewrite Nb in Hlen. lia. }
    rewrite <- app_assoc in Nb.
    assert (Eend : exists y, ending (getRimeParts b)
                             = y ++ [x] ++ rime (getRimeParts b)).
    { rewrite Eb, Nb. rewrite sliceLast3_app by (rewrite length_app; simpl; lia).
      eexists. reflexivity. }
    destruct Eend as [y Ey].
    destruct (sliceLast3_spec (normalizeWord c)) as (z & Hz & _).
    rewrite <- Ec, <- Ee, Ey, Rb in Hz.
    assert (D : vowelCluster (getRimeParts c) = vowelCluster (getRimeParts b)
                /\ coda (getRimeParts c) = coda (getRimeParts b)
                /\ rime (getRimeParts c)
                   = vowelCluster (getRimeParts b) ++ coda (getRimeParts b)).
    { apply (rime_of_decomposition c ((z ++ y) ++ [x])); try assumption.
      - rewrite Hz. now rewrite <- !app_assoc.
      - right. exists (z ++ y), x. auto. }
    destruct D as (_ & _ & Rc). now rewrite Rc, Rb.
Qed.

Lemma isRhyme_trans (a b c : jsstring) :
  isRhyme a b = true ->
  isRhyme b c = true ->
  normalizeWord a <> normalizeWord c ->
  isRhyme a c = true.
Proof.
  intros Hab Hbc Hac.
  apply isRhyme_true_iff in Hab as (Nab & Va & Vb & Hab).
  apply isRhyme_true_iff in Hbc as (Nbc & _ & Vc & Hbc).
  apply isRhyme_true_iff. repeat (split; [assumption|]).
  destruct Hab as [R1 | (E1 & L1)], Hbc as [R2 | (E2 & L2)].
  - left. congruence.
  - apply (rime_then_ending a b c); assumption.
  - assert (H : rime (getRimeParts c) = rime (getRimeParts a)
                \/ (ending (getRimeParts c) = ending (getRimeParts a)
                    /\ 2 <= length (ending (getRimeParts c)))).
    { apply (rime_then_ending c b a); auto; try congruence;
        try (rewrite <- E1; assumption). }
    destruct H as [H | (H & L)]; [left; congruence | right].
    split; [congruence | rewrite <- H; assumption].
  - right. split; [congruence | assumption].
Qed.

(** X22: exact rhyme is transitive between different words: when [a]
    rhymes with [b], [b] rhymes with [c], and [a] and [c] do not have the
    same normalized form, [a] rhymes with [c]. *)
Theorem isRhyme_transitive (a b c : jsstring) :
  isRhyme a b = true ->
  isRhyme b c = true ->
  normalizeWord a <> normalizeWord c ->
  isRhyme a c = true.
Proof. apply isRhyme_trans. Qed.

Lemma isRhyme_transitive_witness : isRhyme (lit "night") (lit "caught") = true.
Proof.
  apply (isRhyme_transitive (lit "night") (lit "light") (lit "caught"));
    try reflexivity.
  vm_compute. discriminate.
Defined.

(** X23: any two lines of one rhyme group whose last words have different
    normalized forms rhyme with each other, although the pass compares
    members with the anchor only. *)
Theorem rhyme_group_members_rhyme (lines : list jsstring) :
  exists g,
    groupLines lines = Some g
    /\ forall group x y wx wy,
         In group (rhymeGroups g) ->
         In x group -> In y group ->
         getLastWord (lineAt lines x) = Some wx ->
         getLastWord (lineAt lines y) = Some wy ->
         normalizeWord wx <> normalizeWord wy ->
         isRhyme wx wy = true.
Proof.
  destruct (groupLines_invariant lines) as (g & Hg & Hr & _).
  exists g. split; [assumption|].
  intros group x y wx wy Hin Hx Hy Ex Ey Hne.
  rewrite getLastWord_total in Ex, Ey. injection Ex as <-. injection Ey as <-.
  rewrite Forall_forall in Hr. destruct (Hr group Hin) as (i & _ & _ & _ & ->).
  assert (Hp : forall j, In j (partners lines (map lastWordOf lines) isRhyme i) ->
               isRhyme (lastWordOf (lineAt lines i)) (lastWordOf (lineAt lines j))
               = true).
  { intros j Hj. apply In_partners_iff in Hj as (_ & _ & _ & H).
    now rewrite !lineAt_lastWords in H. }
  destruct Hx as [<- | Hx], Hy as [<- | Hy].
  - contradiction.
  - now apply Hp.
  - rewrite isRhyme_sym. now apply Hp.
  - apply (isRhyme_trans _ (lastWordOf (lineAt lines i))); auto.
    rewrite isRhyme_sym. now apply Hp.
Qed.

Lemma rhyme_group_members_rhyme_witness :
  isRhyme (lit "night") (lit "caught") = true.
Proof.
  destruct (rhyme_group_members_rhyme
              [lit "the light"; lit "at night"; lit "got caught"])
    as (g & Hg & H).
  apply (H [0; 1; 2] 1 2).
  - vm_compute in Hg. injection Hg as <-. simpl. now left.
  - simpl. tauto.
  - simpl. tauto.
  - reflexivity.
  - reflexivity.
  - vm_compute. discriminate.
Defined.
